(** * ComfyLatentTools, [core/unet.py]: attention overrides and block selectors

    A shallow embedding of the three components of [core/unet.py]:
    - [pag_perturbed_attention], the identity attention override;
    - [seg_attention_wrapper] (and [seg_attention_wrapper_old]), the
      blurred-query attention wrapper;
    - [parse_unet_blocks], the block selector parser, with its local helper
      [group_blocks].

    Python exceptions are values of [exn] carried by [result]; Python [int]
    is [Z]; Python [float] is IEEE binary64 as [spec_float]; a Python [str]
    is a [string] whose characters are read as the code points 0..255. *)

From Stdlib Require Import ZArith List String Ascii Bool Lia PeanoNat Sorted.
From Stdlib Require Import Floats.SpecFloat.
Import ListNotations.

Set Implicit Arguments.

(** ** Exceptions and results *)

Inductive exn : Type :=
| IndexError | ValueError | KeyError | UnboundLocalError | AssertionError
| ZeroDivisionError | OverflowError | TypeError | RuntimeError.

Inductive result (A : Type) : Type :=
| Ok (a : A)
| Raise (e : exn).

Arguments Ok {A} a.
Arguments Raise {A} e.

Definition bind {A B : Type} (r : result A) (k : A -> result B) : result B :=
  match r with
  | Ok a => k a
  | Raise e => Raise e
  end.

Notation "x <- r ;; k" := (bind r (fun x => k))
  (at level 61, r at next level, right associativity).
Notation "' pat <- r ;; k" := (bind r (fun x => match x with pat => k end))
  (at level 61, pat pattern, r at next level, right associativity).

(** ** Python built-ins used by the module *)

Module Py.

Local Open Scope string_scope.

Definition code (c : ascii) : N := N_of_ascii c.

(** [str.isspace] of one character, as [str.strip] uses it
    ([Py_UNICODE_ISSPACE]): TAB..CR, FS..US, SPACE, NEL, NBSP. *)
Definition isspace (c : ascii) : bool :=
  let n := code c in
  ((9 <=? n) && (n <=? 13) || (28 <=? n) && (n <=? 32)
   || (n =? 133) || (n =? 160))%N.

(** Whitespace as [int()] skips it: the string is first mapped to ASCII
    (non-ASCII whitespace becomes SPACE), then the C-locale test applies,
    which leaves FS..US out. *)
Definition int_isspace (c : ascii) : bool :=
  let n := code c in
  ((9 <=? n) && (n <=? 13) || (n =? 32) || (n =? 133) || (n =? 160))%N.

Definition isdigit (c : ascii) : bool :=
  let n := code c in ((48 <=? n) && (n <=? 57))%N.

Definition digit_value (c : ascii) : Z := Z.of_N (code c) - 48.

Definition is_empty (s : string) : bool :=
  match s with EmptyString => true | String _ _ => false end.

Fixpoint lstrip (s : string) : string :=
  match s with
  | EmptyString => EmptyString
  | String c r => if isspace c then lstrip r else s
  end.

Fixpoint rstrip (s : string) : string :=
  match s with
  | EmptyString => EmptyString
  | String c r =>
      let r' := rstrip r in
      if isspace c && is_empty r' then EmptyString else String c r'
  end.

(** [s.strip()] *)
Definition strip (s : string) : string := rstrip (lstrip s).

(** [s.split(sep)] for a one-character separator. *)
Fixpoint split (sep : ascii) (s : string) : list string :=
  match s with
  | EmptyString => [EmptyString]
  | String c r =>
      if Ascii.eqb c sep then EmptyString :: split sep r
      else match split sep r with
           | h :: t => String c h :: t
           | [] => [String c EmptyString]
           end
  end.

(** [s.startswith(p)] *)
Definition startswith (s p : string) : bool := String.prefix p s.

(** [s.endswith(p)] *)
Definition endswith (s p : string) : bool :=
  let n := String.length s in
  let m := String.length p in
  (m <=? n)%nat && String.eqb (String.substring (n - m) m s) p.

(** [xs[i]] on a list: negative indices count from the end. *)
Definition getitem {A : Type} (xs : list A) (i : Z) : result A :=
  let n := Z.of_nat (List.length xs) in
  let j := (if i <? 0 then i + n else i)%Z in
  if ((j <? 0) || (n <=? j))%Z then Raise IndexError
  else match nth_error xs (Z.to_nat j) with
       | Some x => Ok x
       | None => Raise IndexError
       end.

Section Int.

(** [sys.get_int_max_str_digits()]: 0 disables the limit. *)
Variable int_max_str_digits : nat.

Inductive scan_prev : Type := AtStart | AfterDigit | AfterUnderscore.

Fixpoint all_int_space (s : string) : bool :=
  match s with
  | EmptyString => true
  | String c r => int_isspace c && all_int_space r
  end.

(** The digit scan of [int(s)] in base 10: digits with single underscores
    between them, then only whitespace.  Returns the value and the number of
    digits read. *)
Fixpoint scan_int (s : string) (prev : scan_prev) (acc : Z) (n : nat)
  : option (Z * nat) :=
  let stop :=
    match prev with
    | AfterDigit => if all_int_space s then Some (acc, n) else None
    | _ => None
    end in
  match s with
  | EmptyString => stop
  | String c r =>
      if isdigit c then scan_int r AfterDigit (acc * 10 + digit_value c)%Z (S n)
      else if Ascii.eqb c "_" then
        match prev with
        | AfterDigit => scan_int r AfterUnderscore acc n
        | _ => None
        end
      else stop
  end.

Fixpoint skip_int_space (s : string) : string :=
  match s with
  | EmptyString => EmptyString
  | String c r => if int_isspace c then skip_int_space r else s
  end.

(** [int(s)] for a [str] argument. *)
Definition int (s : string) : result Z :=
  let s1 := skip_int_space s in
  let '(neg, s2) :=
    match s1 with
    | String c r =>
        if Ascii.eqb c "+" then (false, r)
        else if Ascii.eqb c "-" then (true, r)
        else (false, s1)
    | EmptyString => (false, s1)
    end in
  match scan_int s2 AtStart 0 0 with
  | None => Raise ValueError
  | Some (v, n) =>
      if (640 <? n)%nat && (0 <? int_max_str_digits)%nat
         && (int_max_str_digits <? n)%nat
      then Raise ValueError
      else Ok (if neg then - v else v)%Z
  end.

End Int.

End Py.

(** ** The block selector parser *)

Open Scope string_scope.
Open Scope Z_scope.

(** What [model.diffusion_model.named_modules()] yields, in traversal order:
    the dotted name of each submodule and its class name. *)
Definition Model : Type := list (string * string).

(** A run-length group [(value, count)]. *)
Definition Group : Type := (Z * Z)%type.

(** An address [(layer, number, index)]. *)
Definition BlockAddress : Type := (string * Z * option Z)%type.

(** [itertools.groupby] without a key: walk the list, keep the key and the
    length of the open run, close the run when the next element differs. *)
Fixpoint groupby_from (key : Z) (count : Z) (blocks : list Z) : list Group :=
  match blocks with
  | [] => [(key, count)]
  | x :: rest =>
      if x =? key then groupby_from key (count + 1) rest
      else (key, count) :: groupby_from x 1 rest
  end.

(** [[(i, len(list(gr))) for i, gr in groupby(blocks)]] *)
Definition group_blocks (blocks : list Z) : list Group :=
  match blocks with
  | [] => []
  | x :: rest => groupby_from x 1 rest
  end.

Section Parser.

Variable int_max_str_digits : nat.

(** The three lists of raw block ids. *)
Record RawBlocks : Type := mkRaw {
  raw_input : list Z;
  raw_middle : list Z;
  raw_output : list Z
}.

(** One iteration of the loop over [named_modules()]. *)
Definition collect_module (acc : RawBlocks) (nm : string * string)
  : result RawBlocks :=
  let '(name, class_name) := nm in
  if String.eqb class_name "CrossAttention" && Py.endswith name "attn1" then
    let parts := Py.split "." name in
    block_name <- Py.getitem parts 0 ;;
    p1 <- Py.getitem parts 1 ;;
    block_id <- Py.int int_max_str_digits p1 ;;
    if Py.startswith block_name "input" then
      Ok (mkRaw (raw_input acc ++ [block_id]) (raw_middle acc) (raw_output acc))
    else if Py.startswith block_name "middle" then
      Ok (mkRaw (raw_input acc) (raw_middle acc ++ [block_id - 1]) (raw_output acc))
    else if Py.startswith block_name "output" then
      Ok (mkRaw (raw_input acc) (raw_middle acc) (raw_output acc ++ [block_id]))
    else Ok acc
  else Ok acc.

Fixpoint collect_blocks (acc : RawBlocks) (mods : Model) : result RawBlocks :=
  match mods with
  | [] => Ok acc
  | nm :: rest => acc' <- collect_module acc nm ;; collect_blocks acc' rest
  end.

(** The three run-length encoded lists. *)
Record Blocks : Type := mkBlocks {
  input_blocks : list Group;
  middle_blocks : list Group;
  output_blocks : list Group
}.

(** The locals [layer] and [cur_blocks]: unbound until a [case] binds them,
    and kept from one iteration to the next. *)
Definition Locals : Type := option (string * list Group).

(** The [match name] statement: no [case] matches any other character, and
    the locals keep what they held. *)
Definition match_name (bl : Blocks) (name : ascii) (loc : Locals) : Locals :=
  if Ascii.eqb name "d" then Some ("input", input_blocks bl)
  else if Ascii.eqb name "m" then Some ("middle", middle_blocks bl)
  else if Ascii.eqb name "u" then Some ("output", output_blocks bl)
  else loc.

Definition load_cur_blocks (loc : Locals) : result (list Group) :=
  match loc with
  | Some (_, cur_blocks) => Ok cur_blocks
  | None => Raise UnboundLocalError
  end.

Definition load_layer (loc : Locals) : result string :=
  match loc with
  | Some (layer, _) => Ok layer
  | None => Raise UnboundLocalError
  end.

(** [assert cond], in the interpreter's default mode, where assertions are
    executed. *)
Definition assert_ (cond : result bool) : result unit :=
  c <- cond ;; if c then Ok tt else Raise AssertionError.

(** The body of [for block in unet_blocks].  The assertion is the chained
    comparison [0 <= index < cur_blocks[int(indices[0])][1]], whose right
    part is evaluated only when the left part holds. *)
Definition parse_block (bl : Blocks) (loc : Locals) (block : string)
  : result (Locals * BlockAddress) :=
  match block with
  | EmptyString => Raise IndexError
  | String name rest =>
      let indices := Py.split "." rest in
      let loc := match_name bl name loc in
      if (2 <=? List.length indices)%nat then
        cur_blocks <- load_cur_blocks loc ;;
        i0 <- Py.getitem indices 0 ;;
        p <- Py.int int_max_str_digits i0 ;;
        g <- Py.getitem cur_blocks p ;;
        i1 <- Py.getitem indices 1 ;;
        index <- Py.int int_max_str_digits i1 ;;
        let number := fst g in
        _ <- assert_ (if 0 <=? index then
                        p' <- Py.int int_max_str_digits i0 ;;
                        g' <- Py.getitem cur_blocks p' ;;
                        Ok (index <? snd g')
                      else Ok false) ;;
        layer <- load_layer loc ;;
        Ok (loc, (layer, number, Some index))
      else
        cur_blocks <- load_cur_blocks loc ;;
        i0 <- Py.getitem indices 0 ;;
        p <- Py.int int_max_str_digits i0 ;;
        g <- Py.getitem cur_blocks p ;;
        let number := fst g in
        layer <- load_layer loc ;;
        Ok (loc, (layer, number, None))
  end.

(** The loop over the stripped tokens, appending to [output]; the locals
    are returned with it. *)
Fixpoint parse_loop (bl : Blocks) (loc : Locals) (unet_blocks : list string)
  (output : list BlockAddress) : result (Locals * list BlockAddress) :=
  match unet_blocks with
  | [] => Ok (loc, output)
  | block :: rest =>
      '(loc', addr) <- parse_block bl loc block ;;
      parse_loop bl loc' rest (output ++ [addr])
  end.

(** [[b.strip() for b in unet_block_list.split(",")]] *)
Definition unet_blocks_of (unet_block_list : string) : list string :=
  map Py.strip (Py.split "," unet_block_list).

Definition grouped (raw : RawBlocks) : Blocks :=
  mkBlocks (group_blocks (raw_input raw)) (group_blocks (raw_middle raw))
           (group_blocks (raw_output raw)).

(** The selector loop on given run-length groups. *)
Definition parse_selectors (bl : Blocks) (unet_block_list : string)
  : result (list BlockAddress) :=
  '(_, output) <- parse_loop bl None (unet_blocks_of unet_block_list) [] ;;
  Ok output.

Definition parse_unet_blocks (model : Model) (unet_block_list : string)
  : result (list BlockAddress) :=
  raw <- collect_blocks (mkRaw [] [] []) model ;;
  parse_selectors (grouped raw) unet_block_list.

End Parser.

(** ** Python floats (IEEE binary64) *)

Module Float.

Definition prec : Z := 53.
Definition emax : Z := 1024.

Definition float : Type := spec_float.

(** The nearest float of an integer (ties to even), infinite when too large. *)
Definition of_Z (z : Z) : float := binary_normalize prec emax z 0 false.

Definition zero : float := S754_zero false.
Definition half : float := Eval vm_compute in binary_normalize prec emax 1 (-1) false.
Definition one : float := Eval vm_compute in of_Z 1.
Definition six : float := Eval vm_compute in of_Z 6.

Definition is_finite (x : float) : bool :=
  match x with
  | S754_zero _ | S754_finite _ _ _ => true
  | _ => false
  end.

(** [float(n)] for an [int]: OverflowError when [n] is too large. *)
Definition of_int (n : Z) : result float :=
  let x := of_Z n in
  if is_finite x then Ok x else Raise OverflowError.

(** [a / b] on two [int]s: the correctly rounded quotient. *)
Definition int_truediv (a b : Z) : result float :=
  let exact (n : Z) : float :=
    match n with
    | Z0 => S754_zero false
    | Zpos m => S754_finite false m 0
    | Zneg m => S754_finite true m 0
    end in
  if b =? 0 then Raise ZeroDivisionError
  else
    let x := SFdiv prec emax (exact a) (exact b) in
    if is_finite x then Ok x else Raise OverflowError.

(** [x / y] on floats. *)
Definition truediv (x y : float) : result float :=
  match y with
  | S754_zero _ => Raise ZeroDivisionError
  | _ => Ok (SFdiv prec emax x y)
  end.

Definition mul (x y : float) : float := SFmul prec emax x y.

(** [x >= y] *)
Definition ge (x y : float) : bool := SFleb y x.

(** [x < y] *)
Definition lt (x y : float) : bool := SFltb x y.

(** The value of a finite float as a fraction [n / d], [d > 0]. *)
Definition to_fraction (x : float) : option (Z * Z) :=
  match x with
  | S754_zero _ => Some (0, 1)
  | S754_finite s m e =>
      let n := if s then Zneg m else Zpos m in
      Some (if 0 <=? e then (n * 2 ^ e, 1) else (n, 2 ^ (- e)))
  | _ => None
  end.

(** Converting a NaN to [int] raises ValueError, an infinity OverflowError. *)
Definition not_finite (x : float) : exn :=
  match x with
  | S754_nan => ValueError
  | _ => OverflowError
  end.

(** [math.ceil(x)]: ValueError on NaN, OverflowError on an infinity. *)
Definition ceil (x : float) : result Z :=
  match to_fraction x with
  | Some (n, d) => Ok (- ((- n) / d))
  | None => Raise (not_finite x)
  end.

(** [round(x)] with one argument: the nearest integer, ties to even. *)
Definition round (x : float) : result Z :=
  match to_fraction x with
  | Some (n, d) =>
      let q := n / d in
      let r := n mod d in
      Ok (if 2 * r <? d then q
          else if d <? 2 * r then q + 1
          else if Z.even q then q else q + 1)
  | None => Raise (not_finite x)
  end.

Section Pow.

(** The C library's [pow], which [float.__pow__] calls outside its own
    special cases. *)
Variable libm_pow : float -> float -> float.

(** [x ** 0.5].  A negative base gives a [complex], of which [round] raises
    TypeError: the error is reported here. *)
Definition pow_half (x : float) : result float :=
  match x with
  | S754_nan => Ok S754_nan
  | S754_infinity _ => Ok (S754_infinity false)
  | S754_zero _ => Ok zero
  | S754_finite true _ _ => Raise TypeError
  | S754_finite false _ _ =>
      if SFeqb x one then Ok one else Ok (libm_pow x half)
  end.

End Pow.

(** A [pow] that is correctly rounded at the exponent 0.5. *)
Definition sqrt_pow (x y : float) : float := SFsqrt prec emax x.

End Float.

(** ** Tensors *)

(** The source index of [permute(0, 2, 1)] on a tensor of shape
    [(_, a, c)]. *)
Definition permute_src (a c i : nat) : nat :=
  (i / (c * a) * (a * c) + i mod a * c + i mod (c * a) / a)%nat.

Section Tensors.

(** The element type of the tensors and the library's mean of the elements
    of a slice, listed in row-major order. *)
Variable elem : Type.
Variable mean : list elem -> elem.

(** A tensor: its shape and its elements in row-major (logical) order. *)
Record Tensor : Type := mkTensor {
  shape : list nat;
  data : list elem
}.

Definition numel (sh : list nat) : nat := fold_right Nat.mul 1%nat sh.

Definition well_formed (t : Tensor) : Prop :=
  List.length (data t) = numel (shape t).

(** The list of length [n] whose [i]-th element is element [src i] of
    [xs]. *)
Definition gather (src : nat -> nat) (n : nat) (xs : list elem) : list elem :=
  match xs with
  | [] => []
  | d :: _ => map (fun i => nth (src i) xs d) (seq 0 n)
  end.

(** [t.permute(0, 2, 1)] on a tensor of three axes: element [(b, c, a)] of
    the result is element [(b, a, c)] of [t]. *)
Definition permute_0_2_1 (t : Tensor) : result Tensor :=
  match shape t with
  | [bs; a; c] =>
      Ok (mkTensor [bs; c; a] (gather (permute_src a c) (bs * c * a) (data t)))
  | _ => Raise RuntimeError
  end.

(** The product of the given sizes of a requested shape, [-1] left out. *)
Definition known_size (sh : list Z) : Z :=
  fold_right (fun d acc => if d =? -1 then acc else d * acc) 1 sh.

(** The library's shape inference for [reshape]: at most one [-1], which
    stands for the quotient of the number of elements by the product of the
    other sizes; the division has to be exact and the product positive. *)
Definition infer_size (sh : list Z) (n : Z) : result (list Z) :=
  if existsb (fun d => d <? -1) sh then Raise RuntimeError
  else
    let holes := count_occ Z.eq_dec sh (-1) in
    if (1 <? holes)%nat then Raise RuntimeError
    else
      let newsize := known_size sh in
      if (n =? newsize)
         || ((holes =? 1)%nat && (0 <? newsize) && (n mod newsize =? 0))
      then
        if (holes =? 1)%nat then
          if newsize =? 0 then Raise RuntimeError
          else Ok (map (fun d => if d =? -1 then n / newsize else d) sh)
        else Ok sh
      else Raise RuntimeError.

(** [t.reshape(...)]: the same elements in the same order. *)
Definition reshape (t : Tensor) (sh : list Z) : result Tensor :=
  sh' <- infer_size sh (Z.of_nat (numel (shape t))) ;;
  Ok (mkTensor (map Z.to_nat sh') (data t)).

(** [t.mean(dim=(-2, -1), keepdim=True)] on a tensor of four axes, as the
    wrappers apply it. *)
Definition mean_last2 (t : Tensor) : result Tensor :=
  match shape t with
  | [bs; c; h; w] =>
      let slice (i : nat) : list elem :=
        firstn (h * w) (skipn (i * (h * w)) (data t)) in
      Ok (mkTensor [bs; c; 1%nat; 1%nat]
                   (map (fun i => mean (slice i)) (seq 0 (bs * c))))
  | _ => Raise IndexError
  end.

(** [t[:] = m] for [m] of shape [(bs, c, 1, 1)] and [t] of shape
    [(bs, c, h, w)]: [m] is broadcast over the last two axes. *)
Definition assign_all (t m : Tensor) : result Tensor :=
  match shape t, shape m with
  | [bs; c; h; w], [bs'; c'; 1%nat; 1%nat] =>
      if ((bs =? bs') && (c =? c'))%nat then
        Ok (mkTensor (shape t)
                     (gather (fun i => (i / (h * w))%nat) (bs * c * h * w) (data m)))
      else Raise RuntimeError
  | _, _ => Raise RuntimeError
  end.

(** ** The attention overrides *)

(** [extra_options]: the two keys the overrides read. *)
Record ExtraOptions : Type := mkOptions {
  n_heads : option Z;
  original_shape : option (list Z)
}.

Definition lookup {A : Type} (v : option A) : result A :=
  match v with
  | Some a => Ok a
  | None => Raise KeyError
  end.

(** [def pag_perturbed_attention(q, k, v, extra_options, mask=None)] *)
Definition pag_perturbed_attention (q k v : Tensor)
  (extra_options : ExtraOptions) (mask : option Tensor) : Tensor := v.

(** [bs, area, inner_dim = q.shape] *)
Definition unpack3 (sh : list nat) : result (nat * nat * nat) :=
  match sh with
  | [bs; area; inner_dim] => Ok (bs, area, inner_dim)
  | _ => Raise ValueError
  end.

(** [height_orig, width_orig = extra_options["original_shape"][2:4]] *)
Definition unpack_hw (original_shape : list Z) : result (Z * Z) :=
  match firstn 2 (skipn 2 original_shape) with
  | [height_orig; width_orig] => Ok (height_orig, width_orig)
  | _ => Raise ValueError
  end.

Variable libm_pow : Float.float -> Float.float -> Float.float.

(** [round((area / aspect_ratio) ** 0.5)] *)
Definition rounded_height (area : nat) (aspect_ratio : Float.float) : result Z :=
  fa <- Float.of_int (Z.of_nat area) ;;
  x <- Float.truediv fa aspect_ratio ;;
  y <- Float.pow_half libm_pow x ;;
  Float.round y.

(** [round((area * aspect_ratio) ** 0.5)] *)
Definition rounded_width (area : nat) (aspect_ratio : Float.float) : result Z :=
  fa <- Float.of_int (Z.of_nat area) ;;
  y <- Float.pow_half libm_pow (Float.mul fa aspect_ratio) ;;
  Float.round y.

(** Lines 39-44: reshape (B, area, dim) -> (B, dim, H, W). *)
Definition to_spatial (q : Tensor) (bs area inner_dim : nat)
  (aspect_ratio : Float.float) : result Tensor :=
  if Float.ge aspect_ratio Float.one then
    height <- rounded_height area aspect_ratio ;;
    qp <- permute_0_2_1 q ;;
    reshape qp [Z.of_nat bs; Z.of_nat inner_dim; height; -1]
  else
    width <- rounded_width area aspect_ratio ;;
    qp <- permute_0_2_1 q ;;
    reshape qp [Z.of_nat bs; Z.of_nat inner_dim; -1; width].

(** Lines 73-74: reshape back to (B, area, dim). *)
Definition from_spatial (q : Tensor) (bs inner_dim : nat) : result Tensor :=
  qr <- reshape q [Z.of_nat bs; Z.of_nat inner_dim; -1] ;;
  permute_0_2_1 qr.

(** Lines 48-50: [math.ceil(6 * blur_sigma)], plus one when even. *)
Definition odd_kernel_size (blur_sigma : Float.float) : result Z :=
  kernel_size <- Float.ceil (Float.mul Float.six blur_sigma) ;;
  Ok (if kernel_size mod 2 =? 0 then kernel_size + 1 else kernel_size).

(** [q.shape[-2], q.shape[-1]] *)
Definition last2 (sh : list nat) : result (Z * Z) :=
  match rev sh with
  | w :: h :: _ => Ok (Z.of_nat h, Z.of_nat w)
  | _ => Raise IndexError
  end.

(** Lines 48-56: the kernel size after the cap. *)
Definition capped_kernel_size (blur_sigma : Float.float) (q : Tensor)
  : result Z :=
  kernel_size <- odd_kernel_size blur_sigma ;;
  '(h, w) <- last2 (shape q) ;;
  let max_k := 2 * Z.min h w - 1 in
  Ok (Z.min kernel_size max_k).

(** Kornia's [GaussianBlur2d(kernel_size, sigma, border_type)(q)]. *)
Variable GaussianBlur2d :
  Z * Z -> Float.float * Float.float -> string -> Tensor -> result Tensor.

(** Lines 46-71: blur, or collapse to the mean. *)
Definition perturb (blur_sigma : Float.float) (border_mode : string)
  (q : Tensor) : result Tensor :=
  if Float.ge blur_sigma Float.zero then
    kernel_size <- capped_kernel_size blur_sigma q ;;
    if 3 <=? kernel_size then
      GaussianBlur2d (kernel_size, kernel_size) (blur_sigma, blur_sigma)
                     border_mode q
    else Ok q
  else
    m <- mean_last2 q ;;
    assign_all q m.

Section Wrapper.

(** The wrapped attention function, called as
    [attention(q, k, v, heads=heads)]. *)
Variable attention : Tensor -> Tensor -> Tensor -> Z -> result Tensor.

(** Lines 32-44: the options, the shape and the spatial form of [q]. *)
Definition spatial_query (q : Tensor) (extra_options : ExtraOptions)
  : result (Z * nat * nat * Tensor) :=
  heads <- lookup (n_heads extra_options) ;;
  '(bs, area, inner_dim) <- unpack3 (shape q) ;;
  osh <- lookup (original_shape extra_options) ;;
  '(height_orig, width_orig) <- unpack_hw osh ;;
  aspect_ratio <- Float.int_truediv width_orig height_orig ;;
  qs <- to_spatial q bs area inner_dim aspect_ratio ;;
  Ok (heads, bs, inner_dim, qs).

(** The query that [seg_perturbed_attention] hands to [attention]. *)
Definition perturbed_query (blur_sigma : Float.float) (border_mode : string)
  (q : Tensor) (extra_options : ExtraOptions) : result (Z * Tensor) :=
  '(heads, bs, inner_dim, qs) <- spatial_query q extra_options ;;
  qb <- perturb blur_sigma border_mode qs ;;
  q' <- from_spatial qb bs inner_dim ;;
  Ok (heads, q').

(** The inner function [seg_perturbed_attention], with the variables of
    the enclosing call that it captures. *)
Definition seg_perturbed_attention (blur_sigma : Float.float)
  (border_mode : string) (q k v : Tensor) (extra_options : ExtraOptions)
  (mask : option Tensor) : result Tensor :=
  '(heads, q') <- perturbed_query blur_sigma border_mode q extra_options ;;
  attention q' k v heads.

(** [seg_attention_wrapper(attention, blur_sigma, border_mode)] returns
    [seg_perturbed_attention]. *)
Definition seg_attention_wrapper (blur_sigma : Float.float)
  (border_mode : string)
  : Tensor -> Tensor -> Tensor -> ExtraOptions -> option Tensor -> result Tensor :=
  seg_perturbed_attention blur_sigma border_mode.

(** [gaussian_blur_2d] of [latent_filters.py], which is not part of the
    sources at hand. *)
Variable gaussian_blur_2d : Tensor -> Z -> Float.float -> result Tensor.

(** Line 107 of [seg_attention_wrapper_old]. *)
Definition old_kernel_size (blur_sigma : Float.float) : result Z :=
  c1 <- Float.ceil (Float.mul Float.six blur_sigma) ;;
  c2 <- Float.ceil (Float.mul Float.six blur_sigma) ;;
  Ok (c1 + 1 - c2 mod 2).

(** The inner function of [seg_attention_wrapper_old]. *)
Definition seg_perturbed_attention_old (blur_sigma : Float.float)
  (q k v : Tensor) (extra_options : ExtraOptions) (mask : option Tensor)
  : result Tensor :=
  '(heads, bs, inner_dim, qs) <- spatial_query q extra_options ;;
  qb <- (if Float.ge blur_sigma Float.zero then
           kernel_size <- old_kernel_size blur_sigma ;;
           gaussian_blur_2d qs kernel_size blur_sigma
         else
           m <- mean_last2 qs ;;
           assign_all qs m) ;;
  q' <- from_spatial qb bs inner_dim ;;
  attention q' k v heads.

Definition seg_attention_wrapper_old (blur_sigma : Float.float)
  : Tensor -> Tensor -> Tensor -> ExtraOptions -> option Tensor -> result Tensor :=
  seg_perturbed_attention_old blur_sigma.

End Wrapper.

End Tensors.

(** ** Texts: character classes and decimal fields *)

Module Text.

Import Py.

Fixpoint all_chars (P : ascii -> bool) (s : string) : bool :=
  match s with
  | EmptyString => true
  | String c r => P c && all_chars P r
  end.

Definition not_char (sep c : ascii) : bool := negb (Ascii.eqb c sep).
Definition not_space (c : ascii) : bool := negb (isspace c).

(** A non-empty string of the digits 0..9. *)
Definition is_digits (s : string) : bool :=
  negb (is_empty s) && all_chars isdigit s.

Fixpoint decimal_from (acc : Z) (s : string) : Z :=
  match s with
  | EmptyString => acc
  | String c r => decimal_from (acc * 10 + digit_value c) r
  end.

(** The number a string of digits denotes in base 10. *)
Definition decimal (s : string) : Z := decimal_from 0 s.

(** The field is short enough for the interpreter's limit on [int(str)]. *)
Definition within_limit (lim : nat) (s : string) : bool :=
  ((String.length s <=? 640) || (lim =? 0) || (String.length s <=? lim))%nat.

(** What a token may be made of: no whitespace and no comma. *)
Definition token_char (c : ascii) : bool :=
  not_space c && not_char "," c.

End Text.

(** ** The selector grammar of the specification *)

Module Grammar.

Import Py Text.

Definition is_layer_char (c : ascii) : bool :=
  Ascii.eqb c "d" || Ascii.eqb c "m" || Ascii.eqb c "u".

(** [token := layer_char digits ('.' digits)?] *)
Record Token : Type := mkToken {
  tk_layer : ascii;
  tk_position : string;
  tk_sub_index : option string
}.

Definition token_ok (t : Token) : bool :=
  is_layer_char (tk_layer t) && is_digits (tk_position t)
  && match tk_sub_index t with
     | Some d => is_digits d
     | None => true
     end.

Definition sub_index_text (t : Token) : string :=
  match tk_sub_index t with
  | Some d => String "." d
  | None => EmptyString
  end.

Definition token_text (t : Token) : string :=
  String (tk_layer t) (tk_position t ++ sub_index_text t).

(** A token with the whitespace around it. *)
Record Padded : Type := mkPadded {
  lead : string;
  token : Token;
  trail : string
}.

Definition padded_ok (p : Padded) : bool :=
  all_chars isspace (lead p) && token_ok (token p)
  && all_chars isspace (trail p).

Definition padded_text (p : Padded) : string :=
  lead p ++ token_text (token p) ++ trail p.

(** [selector_list := token (',' token)*] *)
Fixpoint selector_text (ps : list Padded) : string :=
  match ps with
  | [] => EmptyString
  | [p] => padded_text p
  | p :: rest => padded_text p ++ String "," (selector_text rest)
  end.

(** The strings of the grammar. *)
Definition in_grammar (s : string) : Prop :=
  exists ps, ps <> [] /\ forallb padded_ok ps = true /\ s = selector_text ps.

(** Both fields of the token are within the interpreter's limit. *)
Definition fields_within_limit (lim : nat) (p : Padded) : bool :=
  within_limit lim (tk_position (token p))
  && match tk_sub_index (token p) with
     | Some d => within_limit lim d
     | None => true
     end.

(** The layer a layer character stands for, with its groups. *)
Definition layer_of (bl : Blocks) (c : ascii) : string * list Group :=
  if Ascii.eqb c "d" then ("input", input_blocks bl)
  else if Ascii.eqb c "m" then ("middle", middle_blocks bl)
  else ("output", output_blocks bl).

(** The address a token denotes: the value of the group at its position,
    and its sub-index when it is below the count of that group. *)
Definition address (bl : Blocks) (t : Token) : option BlockAddress :=
  let '(layer, groups) := layer_of bl (tk_layer t) in
  match nth_error groups (Z.to_nat (decimal (tk_position t))) with
  | Some (value, count) =>
      match tk_sub_index t with
      | None => Some (layer, value, None)
      | Some d =>
          if decimal d <? count then Some (layer, value, Some (decimal d))
          else None
      end
  | None => None
  end.

(** A recogniser on the tokens between the commas. *)
Definition token_recognised (tok : string) : bool :=
  match tok with
  | EmptyString => false
  | String c rest =>
      is_layer_char c
      && match split "." rest with
         | [p] => is_digits p
         | [p; d] => is_digits p && is_digits d
         | _ => false
         end
  end.

Definition recognised (s : string) : bool :=
  forallb token_recognised (unet_blocks_of s).

End Grammar.

(** ** Run-length groups *)

Module RunLength.

Local Open Scope list_scope.

(** The list a sequence of groups stands for. *)
Definition expand (gs : list Group) : list Z :=
  flat_map (fun g => repeat (fst g) (Z.to_nat (snd g))) gs.

(** No group is empty. *)
Definition positive_counts (gs : list Group) : Prop :=
  Forall (fun g => 1 <= snd g) gs.

(** Neighbouring groups hold different values: every run is maximal. *)
Fixpoint maximal_runs (gs : list Group) : Prop :=
  match gs with
  | g1 :: (g2 :: _) as rest => fst g1 <> fst g2 /\ maximal_runs rest
  | _ => True
  end.

Definition head_value (gs : list Group) : option Z :=
  match gs with
  | [] => None
  | g :: _ => Some (fst g)
  end.

End RunLength.

(** ** Kernel sizes *)

(** The smallest odd integer that is at least [c]. *)
Definition least_odd_above (c k : Z) : Prop :=
  Z.odd k = true /\ c <= k /\ forall j, Z.odd j = true -> c <= j -> k <= j.

(** ** Example models *)

(** Two self-attention blocks [input_blocks.1], none elsewhere. *)
Definition model_input_only : Model :=
  [("input_blocks.1.1.transformer_blocks.0.attn1", "CrossAttention");
   ("input_blocks.1.1.transformer_blocks.0.attn2", "CrossAttention");
   ("input_blocks.1.1.transformer_blocks.1.attn1", "CrossAttention")].

(** One block [middle_block.1] and four blocks [middle_block.2]: the middle
    groups are [(0,1),(1,4)]. *)
Definition model_middle : Model :=
  [("middle_block.1.transformer_blocks.0.attn1", "CrossAttention");
   ("middle_block.2.transformer_blocks.0.attn1", "CrossAttention");
   ("middle_block.2.transformer_blocks.1.attn1", "CrossAttention");
   ("middle_block.2.transformer_blocks.2.attn1", "CrossAttention");
   ("middle_block.2.transformer_blocks.3.attn1", "CrossAttention")].

(** ** Shapes and layouts *)

Definition prodZ (l : list Z) : Z := fold_right Z.mul 1 l.

(** When the reshape of lines 39-44 succeeds. *)
Definition exact_factor (bs dim area : nat) (side : Z) : bool :=
  (0 <? bs * dim)%nat && (0 <? side) && (Z.of_nat area mod side =? 0).

Section Layout.

Variable elem : Type.
Variable mean : list elem -> elem.

(** The elements of [q.permute(0, 2, 1)] for [q] of shape
    [(bs, area, dim)]. *)
Definition permuted (bs area dim : nat) (xs : list elem) : list elem :=
  gather (permute_src area dim) (bs * dim * area) xs.

(** The elements after the mean-collapse of lines 69-71 and the reshape
    back of lines 73-74. *)
Definition collapsed (bs area dim : nat) (xs : list elem) : list elem :=
  let X := permuted bs area dim xs in
  let M := map (fun i => mean (firstn area (skipn (i * area) X)))
               (seq 0 (bs * dim)) in
  gather (permute_src dim area) (bs * area * dim)
         (gather (fun i => (i / area)%nat) (bs * dim * area) M).

End Layout.

(** ** Example tensors *)

(** A mean for integer elements, for the examples. *)
Definition int_mean (xs : list Z) : Z :=
  fold_right Z.add 0 xs / Z.of_nat (List.length xs).

(** A query of shape (1, 8, 2). *)
Definition example_query : Tensor Z :=
  mkTensor [1; 8; 2]%nat [1; 2; 3; 4; 5; 6; 7; 8; 9; 10; 11; 12; 13; 14; 15; 16].

(** A query of shape (1, 10, 1). *)
Definition query_of_area_10 : Tensor Z :=
  mkTensor [1; 10; 1]%nat [1; 2; 3; 4; 5; 6; 7; 8; 9; 10].

(** An original shape 8 x 16: the aspect ratio is 2.0. *)
Definition wide_options : ExtraOptions :=
  mkOptions (Some 8) (Some [1; 4; 8; 16]).

(** An original shape 8 x 8: the aspect ratio is 1.0. *)
Definition square_options : ExtraOptions :=
  mkOptions (Some 8) (Some [1; 4; 8; 8]).

(** An attention function that returns its query, and a blur that returns
    its input. *)
Definition query_attention (q k v : Tensor Z) (heads : Z) : result (Tensor Z) :=
  Ok q.

Definition identity_blur (kernel_size : Z * Z)
  (sigma : Float.float * Float.float) (border_type : string) (q : Tensor Z)
  : result (Tensor Z) := Ok q.

(** ** Modules and addresses *)

(** The test of line 131: a [CrossAttention] module whose name ends in
    [attn1]. *)
Definition is_self_attention (nm : string * string) : bool :=
  String.eqb (snd nm) "CrossAttention" && Py.endswith (fst nm) "attn1".

(** The three layers with their groups. *)
Definition layers (bl : Blocks) : list (string * list Group) :=
  [("input", input_blocks bl); ("middle", middle_blocks bl);
   ("output", output_blocks bl)].

(** An address names one of the three layers and the value of one of its
    groups, with a sub-index, if any, below the count of that group. *)
Definition valid_address (bl : Blocks) (a : BlockAddress) : Prop :=
  let '(layer, number, index) := a in
  exists groups count,
    In (layer, groups) (layers bl) /\ In (number, count) groups /\
    match index with
    | None => True
    | Some i => 0 <= i < count
    end.

(** The locals hold nothing, or one of the three layers. *)
Definition locals_ok (bl : Blocks) (loc : Locals) : Prop :=
  match loc with
  | None => True
  | Some lg => In lg (layers bl)
  end.

(** [l] with [b] appended to its last string. *)
Fixpoint app_last (l : list string) (b : string) : list string :=
  match l with
  | [] => []
  | [h] => [(h ++ b)%string]
  | h :: t => h :: app_last t b
  end.

(** An original shape 16 x 8: the aspect ratio is 0.5. *)
Definition tall_options : ExtraOptions :=
  mkOptions (Some 8) (Some [1; 4; 16; 8]).


(** A blur in the calling convention of [gaussian_blur_2d] that returns
    its input. *)
Definition identity_blur_2d (q : Tensor Z) (kernel_size : Z)
  (sigma : Float.float) : result (Tensor Z) := Ok q.

(** * Properties *)

(** ** Strings *)

Module StrFacts.

Import Py Text.

Lemma all_chars_app P a b :
  all_chars P (a ++ b) = all_chars P a && all_chars P b.
Proof.
  induction a as [|c a IH]; simpl; [reflexivity|].
  now rewrite IH, andb_assoc.
Qed.

Lemma all_chars_weaken (P Q : ascii -> bool) s :
  (forall c, P c = true -> Q c = true) ->
  all_chars P s = true -> all_chars Q s = true.
Proof.
  intros HPQ. induction s as [|c s IH]; simpl; [reflexivity|].
  intros H. apply andb_true_iff in H as [Hc Hs].
  now rewrite (HPQ _ Hc), IH.
Qed.

Lemma split_not_nil sep s : split sep s <> [].
Proof.
  destruct s as [|c r]; simpl; [discriminate|].
  destruct (Ascii.eqb c sep); [discriminate|].
  destruct (split sep r); discriminate.
Qed.

Lemma split_no_sep sep s :
  all_chars (not_char sep) s = true -> split sep s = [s].
Proof.
  induction s as [|c r IH]; simpl; [reflexivity|].
  unfold not_char at 1. intros H. apply andb_true_iff in H as [Hc Hr].
  apply negb_true_iff in Hc. rewrite Hc, (IH Hr). reflexivity.
Qed.

Lemma split_app_sep sep a b :
  all_chars (not_char sep) a = true ->
  split sep (a ++ String sep b) = a :: split sep b.
Proof.
  induction a as [|c r IH]; simpl.
  - intros _. now rewrite Ascii.eqb_refl.
  - unfold not_char at 1. intros H. apply andb_true_iff in H as [Hc Hr].
    apply negb_true_iff in Hc. rewrite Hc, (IH Hr). reflexivity.
Qed.

Lemma lstrip_app_space a b :
  all_chars isspace a = true -> lstrip (a ++ b) = lstrip b.
Proof.
  induction a as [|c r IH]; simpl; [reflexivity|].
  intros H. apply andb_true_iff in H as [Hc Hr]. now rewrite Hc, IH.
Qed.

Lemma lstrip_space s : all_chars isspace s = true -> lstrip s = EmptyString.
Proof.
  induction s as [|c r IH]; simpl; [reflexivity|].
  intros H. apply andb_true_iff in H as [Hc Hr]. now rewrite Hc, IH.
Qed.

Lemma rstrip_space s : all_chars isspace s = true -> rstrip s = EmptyString.
Proof.
  induction s as [|c r IH]; simpl; [reflexivity|].
  intros H. apply andb_true_iff in H as [Hc Hr]. now rewrite (IH Hr), Hc.
Qed.

Lemma rstrip_app_space a b :
  all_chars isspace b = true -> rstrip (a ++ b) = rstrip a.
Proof.
  intros Hb. induction a as [|c r IH]; simpl.
  - now apply rstrip_space.
  - now rewrite IH.
Qed.

Lemma rstrip_not_space s :
  all_chars not_space s = true -> rstrip s = s.
Proof.
  induction s as [|c r IH]; simpl; [reflexivity|].
  unfold not_space at 1. intros H. apply andb_true_iff in H as [Hc Hr].
  apply negb_true_iff in Hc. now rewrite Hc, (IH Hr).
Qed.

(** Stripping removes the whitespace around a text without whitespace. *)
Lemma strip_padded lead text trail :
  all_chars isspace lead = true -> all_chars isspace trail = true ->
  all_chars not_space text = true ->
  strip (lead ++ text ++ trail) = text.
Proof.
  intros Hl Ht Hx. unfold strip.
  rewrite lstrip_app_space by assumption.
  destruct text as [|c r].
  - simpl. rewrite lstrip_space by assumption. reflexivity.
  - assert (Hc : isspace c = false).
    { simpl in Hx. apply andb_true_iff in Hx as [Hc _].
      now apply negb_true_iff in Hc. }
    change ((String c r ++ trail)%string) with (String c (r ++ trail)).
    cbn [lstrip]. rewrite Hc.
    change (String c (r ++ trail)) with ((String c r ++ trail)%string).
    rewrite rstrip_app_space by assumption. now apply rstrip_not_space.
Qed.

End StrFacts.

(** ** Decimal fields *)

Module IntFacts.

Import Py Text StrFacts.

Lemma digit_char c :
  isdigit c = true ->
  isspace c = false /\ int_isspace c = false /\
  Ascii.eqb c "," = false /\ Ascii.eqb c "." = false /\
  Ascii.eqb c "+" = false /\ Ascii.eqb c "-" = false /\
  Ascii.eqb c "_" = false.
Proof.
  destruct c as [[] [] [] [] [] [] [] []]; vm_compute; intros H;
    try discriminate H; repeat split.
Qed.

Lemma digit_value_range c : isdigit c = true -> 0 <= digit_value c <= 9.
Proof.
  destruct c as [[] [] [] [] [] [] [] []]; vm_compute; intros H;
    try discriminate H; split; discriminate.
Qed.

Lemma decimal_from_nonneg s : forall acc, 0 <= acc ->
  all_chars isdigit s = true -> 0 <= decimal_from acc s.
Proof.
  induction s as [|c r IH]; simpl; intros acc Hacc H; [assumption|].
  apply andb_true_iff in H as [Hc Hr].
  apply IH; [|assumption]. pose proof (digit_value_range c Hc). lia.
Qed.

Lemma decimal_nonneg s : is_digits s = true -> 0 <= decimal s.
Proof.
  intros H. apply andb_true_iff in H as [_ H].
  now apply decimal_from_nonneg.
Qed.

Lemma scan_int_digits s : forall prev acc n,
  all_chars isdigit s = true ->
  s <> EmptyString \/ prev = AfterDigit ->
  scan_int s prev acc n = Some (decimal_from acc s, (n + String.length s)%nat).
Proof.
  induction s as [|c r IH]; intros prev acc n Hd Hne.
  - destruct Hne as [Hne | ->]; [congruence|].
    simpl. now rewrite Nat.add_0_r.
  - simpl in Hd. apply andb_true_iff in Hd as [Hc Hr].
    cbn [scan_int]. rewrite Hc.
    rewrite IH by (auto). simpl. now rewrite Nat.add_succ_r.
Qed.

(** [int] reads a field of digits as the number it denotes. *)
Lemma int_digits lim s :
  is_digits s = true -> within_limit lim s = true ->
  Py.int lim s = Ok (decimal s).
Proof.
  intros Hd Hl. apply andb_true_iff in Hd as [Hne Hd].
  destruct s as [|c r]; [discriminate|].
  pose proof Hd as Hd'. simpl in Hd'. apply andb_true_iff in Hd' as [Hc _].
  destruct (digit_char c Hc) as (_ & Hsp & _ & _ & Hplus & Hminus & _).
  unfold Py.int. cbn [skip_int_space]. rewrite Hsp, Hplus, Hminus.
  rewrite scan_int_digits by (auto; left; discriminate).
  cbn [Nat.add]. unfold within_limit in Hl.
  destruct (640 <? String.length (String c r))%nat eqn:E1; [|reflexivity].
  destruct (0 <? lim)%nat eqn:E2; [|reflexivity].
  destruct (lim <? String.length (String c r))%nat eqn:E3; [|reflexivity].
  apply Nat.ltb_lt in E1, E2, E3.
  apply orb_true_iff in Hl as [Hl | Hl];
    [apply orb_true_iff in Hl as [Hl | Hl]|].
  - apply Nat.leb_le in Hl. lia.
  - apply Nat.eqb_eq in Hl. lia.
  - apply Nat.leb_le in Hl. lia.
Qed.

End IntFacts.

(** ** Run-length encoding *)

Module RunLengthFacts.

Import RunLength.

Local Open Scope list_scope.

Lemma groupby_from_spec blocks : forall key count,
  1 <= count ->
  let gs := groupby_from key count blocks in
  expand gs = repeat key (Z.to_nat count) ++ blocks /\
  positive_counts gs /\ maximal_runs gs /\ head_value gs = Some key.
Proof.
  induction blocks as [|x rest IH]; intros key count Hc; cbn zeta.
  - simpl. rewrite !app_nil_r. repeat split. constructor; [assumption|constructor].
  - cbn [groupby_from]. destruct (x =? key) eqn:E.
    + apply Z.eqb_eq in E. subst x.
      destruct (IH key (count + 1) ltac:(lia)) as (He & Hp & Hm & Hh).
      repeat split; try assumption.
      rewrite He. replace (Z.to_nat (count + 1)) with (S (Z.to_nat count)) by lia.
      change (key :: rest) with ([key] ++ rest). rewrite app_assoc. f_equal.
      clear. induction (Z.to_nat count); simpl; [reflexivity|]. now f_equal.
    + apply Z.eqb_neq in E.
      destruct (IH x 1 ltac:(lia)) as (He & Hp & Hm & Hh).
      repeat split.
      * change (expand ((key, count) :: groupby_from x 1 rest))
          with (repeat key (Z.to_nat count) ++ expand (groupby_from x 1 rest)).
        rewrite He. reflexivity.
      * constructor; assumption.
      * destruct (groupby_from x 1 rest) as [|g gs]; [exact I|].
        simpl in Hh. injection Hh as Hh. split; [|assumption].
        simpl. congruence.
Qed.

Lemma expand_head gs :
  positive_counts gs ->
  match gs with
  | [] => expand gs = []
  | g :: _ => exists tl, expand gs = fst g :: tl
  end.
Proof.
  destruct gs as [|[v c] gs]; [reflexivity|].
  intros H. inversion H as [|? ? Hc _]; subst. simpl in Hc.
  unfold expand. simpl.
  destruct (Z.to_nat c) eqn:E; [lia|]. simpl. eauto.
Qed.

(** Peeling the first run off two equal expansions. *)
Lemma repeat_run_inj (v : Z) (t t' : list Z) : forall n n',
  (forall tl, t <> v :: tl) -> (forall tl, t' <> v :: tl) ->
  repeat v n ++ t = repeat v n' ++ t' -> n = n' /\ t = t'.
Proof.
  induction n as [|n IH]; intros [|n'] Ht Ht' H; simpl in H.
  - auto.
  - exfalso. eapply Ht. eassumption.
  - exfalso. eapply Ht'. symmetry. eassumption.
  - injection H as H. destruct (IH n' Ht Ht' H). split; congruence.
Qed.

Lemma tail_not_head (g : Group) gs :
  positive_counts (g :: gs) -> maximal_runs (g :: gs) ->
  forall tl, expand gs <> fst g :: tl.
Proof.
  intros Hp Hm tl. inversion Hp as [|? ? _ Hp']; subst.
  pose proof (expand_head Hp') as Hh.
  destruct gs as [|g2 gs]; [rewrite Hh; discriminate|].
  destruct Hh as [tl' Hh]. rewrite Hh. destruct Hm as [Hne _]. congruence.
Qed.

(** A list has one encoding only with non-empty, maximal runs. *)
Lemma encoding_unique gs : forall gs',
  positive_counts gs -> maximal_runs gs ->
  positive_counts gs' -> maximal_runs gs' ->
  expand gs = expand gs' -> gs = gs'.
Proof.
  induction gs as [|[v c] gs IH]; intros gs' Hp Hm Hp' Hm' He.
  - destruct gs' as [|g' gs']; [reflexivity|].
    destruct (expand_head Hp') as [tl Htl]. rewrite Htl in He. discriminate.
  - destruct gs' as [|[v' c'] gs'].
    + destruct (expand_head Hp) as [tl Htl]. rewrite Htl in He. discriminate.
    + assert (v = v').
      { destruct (expand_head Hp) as [tl Htl].
        destruct (expand_head Hp') as [tl' Htl'].
        rewrite Htl, Htl' in He. simpl in He. congruence. }
      subst v'.
      pose proof (tail_not_head Hp Hm) as Ht.
      pose proof (tail_not_head Hp' Hm') as Ht'.
      change (repeat v (Z.to_nat c) ++ expand gs
              = repeat v (Z.to_nat c') ++ expand gs') in He.
      destruct (repeat_run_inj _ _ Ht Ht' He) as [Hn Hrest].
      inversion Hp as [|? ? Hc Hpt]; inversion Hp' as [|? ? Hc' Hpt']; subst.
      simpl in Hc, Hc'.
      assert (c = c') by lia. subst c'. f_equal.
      apply IH; try assumption.
      * destruct gs as [|? ?]; [exact I|]. apply Hm.
      * destruct gs' as [|? ?]; [exact I|]. apply Hm'.
Qed.

Lemma group_blocks_spec blocks :
  let gs := group_blocks blocks in
  expand gs = blocks /\ positive_counts gs /\ maximal_runs gs.
Proof.
  destruct blocks as [|x rest]; cbn zeta.
  - repeat split. constructor.
  - unfold group_blocks.
    destruct (@groupby_from_spec rest x 1 ltac:(lia)) as (He & Hp & Hm & _).
    repeat split; assumption.
Qed.

(** C8. The run-length encoding of [group_blocks] walks the list in order and
    merges exactly the consecutive equal values: the groups, expanded in
    order, give the list back; no group is empty; neighbouring groups hold
    different values, so that a value that comes back later opens a group of
    its own; and no other list of groups does so.  [0,0,1,1,1,0] is encoded
    as [(0,2),(1,3),(0,1)]. *)
Theorem group_blocks_run_length :
  (forall blocks : list Z,
     let gs := group_blocks blocks in
     expand gs = blocks /\ positive_counts gs /\ maximal_runs gs /\
     forall gs', expand gs' = blocks -> positive_counts gs' ->
                 maximal_runs gs' -> gs' = gs) /\
  group_blocks [0; 0; 1; 1; 1; 0] = [(0, 2); (1, 3); (0, 1)].
Proof.
  split; [|reflexivity].
  intros blocks gs. destruct (group_blocks_spec blocks) as (He & Hp & Hm).
  repeat split; try assumption.
  intros gs' He' Hp' Hm'. apply encoding_unique; try assumption.
  fold gs in He. congruence.
Qed.

(** [(0,2),(1,3),(0,1)] is the encoding of [0,0,1,1,1,0]. *)
Lemma group_blocks_run_length_witness :
  [(0, 2); (1, 3); (0, 1)] = group_blocks [0; 0; 1; 1; 1; 0].
Proof.
  apply (proj1 group_blocks_run_length [0; 0; 1; 1; 1; 0]).
  - reflexivity.
  - repeat constructor; simpl; lia.
  - simpl. repeat split; discriminate.
Defined.

End RunLengthFacts.

(** ** The selector loop *)

Module Selectors.

Import Py Text StrFacts IntFacts Grammar.

Local Open Scope list_scope.

Lemma append_nil_r (s : string) : (s ++ "")%string = s.
Proof. induction s as [|c r IH]; simpl; [reflexivity|]. now rewrite IH. Qed.

Lemma append_assoc (a b c : string) :
  ((a ++ b) ++ c)%string = (a ++ (b ++ c))%string.
Proof. induction a as [|x a IH]; simpl; [reflexivity|]. now rewrite IH. Qed.

Lemma getitem_nth_error {A : Type} (xs : list A) (i : Z) (x : A) :
  0 <= i -> nth_error xs (Z.to_nat i) = Some x -> getitem xs i = Ok x.
Proof.
  intros Hi Hn. unfold getitem.
  assert (Hlt : (Z.to_nat i < List.length xs)%nat).
  { apply nth_error_Some. congruence. }
  destruct (i <? 0) eqn:E; [apply Z.ltb_lt in E; lia|].
  rewrite E. simpl.
  destruct (Z.of_nat (List.length xs) <=? i) eqn:E2;
    [apply Z.leb_le in E2; lia|].
  now rewrite Hn.
Qed.

Lemma getitem_0 {A : Type} (x : A) xs : getitem (x :: xs) 0 = Ok x.
Proof. now apply getitem_nth_error. Qed.

Lemma getitem_1 {A : Type} (x y : A) xs : getitem (x :: y :: xs) 1 = Ok y.
Proof. now apply getitem_nth_error. Qed.

Lemma digits_chars (P : ascii -> bool) s :
  (forall c, isdigit c = true -> P c = true) ->
  is_digits s = true -> all_chars P s = true.
Proof.
  intros HP H. apply andb_true_iff in H as [_ H].
  eapply all_chars_weaken; eauto.
Qed.

Lemma digits_no_dot s :
  is_digits s = true -> all_chars (not_char ".") s = true.
Proof.
  apply digits_chars. intros c Hc. unfold not_char.
  destruct (digit_char c Hc) as (_ & _ & _ & -> & _). reflexivity.
Qed.

Lemma layer_char_cases c :
  is_layer_char c = true -> c = "d"%char \/ c = "m"%char \/ c = "u"%char.
Proof.
  unfold is_layer_char. intros H.
  apply orb_true_iff in H as [H | H]; [apply orb_true_iff in H as [H | H]|];
    apply Ascii.eqb_eq in H; auto.
Qed.

Lemma match_name_layer bl c loc :
  is_layer_char c = true -> match_name bl c loc = Some (layer_of bl c).
Proof.
  intros H. destruct (layer_char_cases c H) as [-> | [-> | ->]]; reflexivity.
Qed.

Lemma token_text_chars t :
  token_ok t = true -> all_chars token_char (token_text t) = true.
Proof.
  intros H. apply andb_true_iff in H as [H Hs].
  apply andb_true_iff in H as [Hl Hp].
  assert (Hd : forall c, isdigit c = true -> token_char c = true).
  { intros c Hc. unfold token_char, not_space, not_char.
    destruct (digit_char c Hc) as (-> & _ & -> & _). reflexivity. }
  unfold token_text. cbn [all_chars]. rewrite all_chars_app.
  rewrite (digits_chars _ _ Hd Hp).
  assert (Hlc : token_char (tk_layer t) = true)
    by (destruct (layer_char_cases _ Hl) as [-> | [-> | ->]]; reflexivity).
  rewrite Hlc. unfold sub_index_text.
  destruct (tk_sub_index t) as [d|]; [|reflexivity].
  cbn [all_chars]. now rewrite (digits_chars _ _ Hd Hs).
Qed.

Lemma space_not_comma s :
  all_chars isspace s = true -> all_chars (not_char ",") s = true.
Proof.
  apply all_chars_weaken. intros c.
  destruct c as [[] [] [] [] [] [] [] []]; vm_compute; congruence.
Qed.

Lemma padded_text_no_comma p :
  padded_ok p = true -> all_chars (not_char ",") (padded_text p) = true.
Proof.
  intros H. apply andb_true_iff in H as [H Ht].
  apply andb_true_iff in H as [Hl Hk].
  unfold padded_text. rewrite !all_chars_app.
  rewrite (space_not_comma _ Hl), (space_not_comma _ Ht).
  rewrite (all_chars_weaken token_char (not_char ",") (token_text (token p)));
    [reflexivity| |now apply token_text_chars].
  intros c Hc. now apply andb_true_iff in Hc as [_ Hc].
Qed.

Lemma strip_padded_text p :
  padded_ok p = true -> strip (padded_text p) = token_text (token p).
Proof.
  intros H. apply andb_true_iff in H as [H Ht].
  apply andb_true_iff in H as [Hl Hk].
  apply strip_padded; try assumption.
  eapply all_chars_weaken; [|now apply token_text_chars].
  intros c Hc. now apply andb_true_iff in Hc as [Hc _].
Qed.

(** The stripped tokens of a selector of the grammar are its tokens. *)
Lemma unet_blocks_of_selector ps :
  ps <> [] -> forallb padded_ok ps = true ->
  unet_blocks_of (selector_text ps) = map (fun p => token_text (token p)) ps.
Proof.
  unfold unet_blocks_of.
  induction ps as [|p rest IH]; intros Hne Hok; [congruence|].
  cbn [forallb] in Hok. apply andb_true_iff in Hok as [Hp Hrest].
  destruct rest as [|p' rest'].
  - cbn [selector_text]. rewrite split_no_sep by now apply padded_text_no_comma.
    cbn [map]. now rewrite strip_padded_text.
  - change (selector_text (p :: p' :: rest'))
      with ((padded_text p ++ String "," (selector_text (p' :: rest')))%string).
    rewrite split_app_sep by now apply padded_text_no_comma.
    cbn [map]. rewrite strip_padded_text by assumption. f_equal.
    apply IH; [discriminate|assumption].
Qed.

Lemma fields_of_token t :
  token_ok t = true ->
  split "." (tk_position t ++ sub_index_text t)%string =
  match tk_sub_index t with
  | Some d => [tk_position t; d]
  | None => [tk_position t]
  end.
Proof.
  intros H. apply andb_true_iff in H as [H Hs].
  apply andb_true_iff in H as [_ Hp].
  unfold sub_index_text. destruct (tk_sub_index t) as [d|].
  - rewrite split_app_sep by now apply digits_no_dot.
    rewrite split_no_sep by now apply digits_no_dot. reflexivity.
  - rewrite append_nil_r. apply split_no_sep. now apply digits_no_dot.
Qed.

Lemma token_text_recognised t :
  token_ok t = true -> token_recognised (token_text t) = true.
Proof.
  intros H. unfold token_recognised, token_text.
  rewrite (fields_of_token _ H).
  apply andb_true_iff in H as [H Hs].
  apply andb_true_iff in H as [Hl Hp]. rewrite Hl. simpl.
  destruct (tk_sub_index t); [now rewrite Hp, Hs|assumption].
Qed.

(** Every string of the grammar passes the recogniser. *)
Lemma in_grammar_recognised s : in_grammar s -> recognised s = true.
Proof.
  intros (ps & Hne & Hok & ->). unfold recognised.
  rewrite unet_blocks_of_selector by assumption.
  apply forallb_forall. intros tok Hin.
  apply in_map_iff in Hin as (p & <- & Hp).
  apply token_text_recognised.
  rewrite forallb_forall in Hok. specialize (Hok p Hp).
  apply andb_true_iff in Hok as [Hok _].
  now apply andb_true_iff in Hok as [_ Hok].
Qed.

(** The loop body on a token of the grammar. *)
Lemma parse_block_token lim bl loc p a :
  padded_ok p = true -> fields_within_limit lim p = true ->
  address bl (token p) = Some a ->
  parse_block lim bl loc (token_text (token p))
  = Ok (Some (layer_of bl (tk_layer (token p))), a).
Proof.
  intros Hok Hlim Ha.
  apply andb_true_iff in Hok as [Hok _].
  apply andb_true_iff in Hok as [_ Hok].
  set (t := token p) in *.
  unfold parse_block, token_text. rewrite (fields_of_token _ Hok).
  pose proof Hok as Hok'.
  apply andb_true_iff in Hok' as [Hk Hs].
  apply andb_true_iff in Hk as [Hl Hp].
  rewrite (match_name_layer bl _ loc Hl).
  unfold address in Ha. unfold fields_within_limit in Hlim.
  apply andb_true_iff in Hlim as [Hlp Hls].
  destruct (layer_of bl (tk_layer t)) as [layer groups] eqn:El.
  destruct (nth_error groups (Z.to_nat (decimal (tk_position t))))
    as [[value count]|] eqn:En; [|discriminate].
  pose proof (decimal_nonneg _ Hp) as Hnn.
  pose proof (getitem_nth_error _ Hnn En) as Hg.
  fold t in Hls, Hlp.
  destruct (tk_sub_index t) as [d|].
  - destruct (decimal d <? count) eqn:Elt; [|discriminate].
    injection Ha as <-.
    cbn [List.length Nat.leb load_cur_blocks load_layer bind].
    rewrite getitem_0, getitem_1.
    cbn [bind]. rewrite (int_digits _ _ Hp Hlp). cbn [bind]. rewrite Hg.
    cbn [bind]. rewrite (int_digits _ _ Hs Hls). cbn [bind fst snd].
    pose proof (decimal_nonneg _ Hs) as Hnd.
    destruct (0 <=? decimal d) eqn:E0; [|apply Z.leb_gt in E0; lia].
    cbn [bind assert_]. rewrite Elt. reflexivity.
  - injection Ha as <-.
    cbn [List.length Nat.leb load_cur_blocks load_layer bind].
    rewrite getitem_0.
    cbn [bind]. rewrite (int_digits _ _ Hp Hlp). cbn [bind]. rewrite Hg.
    reflexivity.
Qed.

Lemma parse_loop_tokens lim bl ps : forall addrs loc output,
  forallb padded_ok ps = true ->
  forallb (fields_within_limit lim) ps = true ->
  Forall2 (fun p a => address bl (token p) = Some a) ps addrs ->
  exists loc',
    parse_loop lim bl loc (map (fun p => token_text (token p)) ps) output
    = Ok (loc', output ++ addrs).
Proof.
  induction ps as [|p rest IH]; intros addrs loc output Hok Hlim Hall.
  - inversion Hall; subst. exists loc. simpl. now rewrite app_nil_r.
  - inversion Hall as [|? a ? addrs' Ha Hrest]; subst.
    cbn [forallb] in Hok, Hlim.
    apply andb_true_iff in Hok as [Hp Hok].
    apply andb_true_iff in Hlim as [Hlp Hlim].
    cbn [map parse_loop].
    rewrite (parse_block_token lim bl loc p Hp Hlp Ha). cbn [bind].
    destruct (IH addrs' (Some (layer_of bl (tk_layer (token p))))
                 (output ++ [a]) Hok Hlim Hrest) as [loc' Hl].
    exists loc'. rewrite Hl. now rewrite <- app_assoc.
Qed.

Lemma parse_loop_app lim bl pre : forall loc post output,
  parse_loop lim bl loc (pre ++ post) output
  = ('(loc', output') <- parse_loop lim bl loc pre output ;;
     parse_loop lim bl loc' post output').
Proof.
  induction pre as [|b pre IH]; intros loc post output; [reflexivity|].
  cbn [app parse_loop].
  destruct (parse_block lim bl loc b) as [[loc' addr]|e]; [|reflexivity].
  cbn [bind]. apply IH.
Qed.

(** Fields after the second are not read. *)
Lemma parse_block_extra_fields lim bl loc name f0 f1 extra :
  all_chars (not_char ".") f0 = true ->
  all_chars (not_char ".") f1 = true ->
  parse_block lim bl loc
    (String name (f0 ++ String "." (f1 ++ String "." extra)))
  = parse_block lim bl loc (String name (f0 ++ String "." f1)).
Proof.
  intros H0 H1. unfold parse_block.
  rewrite !split_app_sep by assumption.
  rewrite (split_no_sep _ _ H1).
  cbn [List.length Nat.leb]. now rewrite !getitem_0, !getitem_1.
Qed.


(** C1. The selector ["d0,x0"]: the second token starts with [x], and the
    call returns two addresses, the second one in the layer of the first
    token, where the claim asks for a parse error. *)
Theorem invalid_prefix_after_valid_token :
  parse_unet_blocks 4300 model_input_only "d0,x0"
  = Ok [("input", 1, None); ("input", 1, None)].
Proof. vm_compute. reflexivity. Qed.

(** C6. When the loop reaches a token with at least two fields, of which
    the first reads as a position of a group [g] of the current layer and the
    second as [index], the loop body checks [0 <= index < count] for the count
    of [g]: within the bound it yields [(layer, value, index)]; out of the
    bound it raises AssertionError, and so does the whole call, which returns
    no address list. *)
Theorem sub_index_asserted :
  forall lim model raw s pre block post loc output name rest i0 i1 more
         layer cur_blocks p g index,
    collect_blocks lim (mkRaw [] [] []) model = Ok raw ->
    unet_blocks_of s = pre ++ block :: post ->
    parse_loop lim (grouped raw) None pre [] = Ok (loc, output) ->
    block = String name rest ->
    split "." rest = i0 :: i1 :: more ->
    match_name (grouped raw) name loc = Some (layer, cur_blocks) ->
    Py.int lim i0 = Ok p ->
    getitem cur_blocks p = Ok g ->
    Py.int lim i1 = Ok index ->
    parse_block lim (grouped raw) loc block
    = (if (0 <=? index) && (index <? snd g)
       then Ok (Some (layer, cur_blocks), (layer, fst g, Some index))
       else Raise AssertionError)
    /\ (~ (0 <= index < snd g) ->
        parse_unet_blocks lim model s = Raise AssertionError).
Proof.
  intros lim model raw s pre block post loc output name rest i0 i1 more
         layer cur_blocks p g index Hc Hs Hpre -> Hf Hm Hp Hg Hi.
  assert (Hb : parse_block lim (grouped raw) loc (String name rest)
               = (if (0 <=? index) && (index <? snd g)
                  then Ok (Some (layer, cur_blocks), (layer, fst g, Some index))
                  else Raise AssertionError)).
  { unfold parse_block. rewrite Hf, Hm.
    cbn [List.length Nat.leb load_cur_blocks load_layer bind].
    rewrite getitem_0, getitem_1.
    cbn [bind]. rewrite Hp. cbn [bind]. rewrite Hg. cbn [bind].
    rewrite Hi. cbn [bind].
    destruct (0 <=? index); [|reflexivity].
    cbn [bind assert_ andb].
    destruct (index <? snd g); reflexivity. }
  split; [exact Hb|].
  intros Hout. unfold parse_unet_blocks. rewrite Hc. cbn [bind].
  unfold parse_selectors. rewrite Hs, parse_loop_app, Hpre. cbn [bind].
  cbn [parse_loop]. rewrite Hb.
  destruct ((0 <=? index) && (index <? snd g)) eqn:E; [|reflexivity].
  apply andb_true_iff in E as [E1 E2].
  apply Z.leb_le in E1. apply Z.ltb_lt in E2. lia.
Qed.

(** The selector ["m1.5"] against the middle groups [(0,1),(1,4)]. *)
Lemma sub_index_asserted_witness :
  middle_blocks (grouped (mkRaw [] [0; 1; 1; 1; 1] [])) = [(0, 1); (1, 4)]
  /\ parse_unet_blocks 4300 model_middle "m1.5" = Raise AssertionError.
Proof.
  split; [reflexivity|].
  refine (proj2 (@sub_index_asserted 4300 model_middle
            (mkRaw [] [0; 1; 1; 1; 1] []) "m1.5" [] "m1.5"%string [] None []
            "m"%char "1.5"%string "1"%string "5"%string []
            "middle"%string [(0, 1); (1, 4)] 1 (1, 4) 5
            _ _ _ _ _ _ _ _ _) _);
    try reflexivity.
  simpl. lia.
Defined.

(** C7, as amended.  Every string of the grammar (tokens
    [layer_char digits ('.' digits)?] separated by commas, whitespace around
    the tokens ignored) whose positions are in range, whose sub-indices are
    below the count of their group and whose fields are within the
    interpreter's limit on [int(str)] is accepted, with one address for each
    token, in order.  Other formats are not all rejected: the fields of a
    token after the second one are not read, and the token is treated as the
    token made of its first two fields. *)
Theorem grammar_selectors_accepted :
  (forall lim model raw ps addrs,
     collect_blocks lim (mkRaw [] [] []) model = Ok raw ->
     ps <> [] ->
     forallb padded_ok ps = true ->
     forallb (fields_within_limit lim) ps = true ->
     Forall2 (fun p a => address (grouped raw) (token p) = Some a) ps addrs ->
     parse_unet_blocks lim model (selector_text ps) = Ok addrs)
  /\ (forall lim bl loc name f0 f1 extra,
     all_chars (not_char ".") f0 = true ->
     all_chars (not_char ".") f1 = true ->
     parse_block lim bl loc
       (String name (f0 ++ String "." (f1 ++ String "." extra)))
     = parse_block lim bl loc (String name (f0 ++ String "." f1))).
Proof.
  split.
  - intros lim model raw ps addrs Hc Hne Hok Hlim Hall.
    unfold parse_unet_blocks. rewrite Hc. cbn [bind].
    unfold parse_selectors. rewrite unet_blocks_of_selector by assumption.
    destruct (parse_loop_tokens lim (grouped raw) None [] Hok Hlim Hall)
      as [loc' Hl].
    rewrite Hl. reflexivity.
  - intros. now apply parse_block_extra_fields.
Qed.

(** The selector [" m0 ,m1.3"] on [model_middle], and the token ["m1.3.9"]. *)
Lemma grammar_selectors_accepted_witness :
  parse_unet_blocks 4300 model_middle " m0 ,m1.3"
  = Ok [("middle", 0, None); ("middle", 1, Some 3)]
  /\ parse_block 4300 (mkBlocks [] [(0, 1); (1, 4)] []) None "m1.3.9"
     = parse_block 4300 (mkBlocks [] [(0, 1); (1, 4)] []) None "m1.3".
Proof.
  split.
  - refine (proj1 grammar_selectors_accepted 4300%nat model_middle
              (mkRaw [] [0; 1; 1; 1; 1] [])
              [mkPadded " " (mkToken "m" "0" None) " ";
               mkPadded "" (mkToken "m" "1" (Some "3"%string)) ""]
              [("middle"%string, 0, None); ("middle"%string, 1, Some 3)]
              _ _ _ _ _).
    + reflexivity.
    + discriminate.
    + reflexivity.
    + reflexivity.
    + repeat constructor.
  - refine (proj2 grammar_selectors_accepted 4300%nat
              (mkBlocks [] [(0, 1); (1, 4)] []) None
              "m"%char "1"%string "3"%string "9"%string _ _);
      reflexivity.
Defined.

(** C7 as stated fails: ["d0.0.7"] has three fields, is no string of the
    grammar, and is accepted. *)
Lemma three_fields_accepted :
  ~ in_grammar "d0.0.7"
  /\ parse_unet_blocks 4300 model_input_only "d0.0.7"
     = Ok [("input", 1, Some 0)].
Proof.
  split.
  - intros H. apply in_grammar_recognised in H. vm_compute in H. discriminate.
  - vm_compute. reflexivity.
Qed.

End Selectors.

(** ** Index arithmetic of the row-major layout *)

Module Index.

Local Open Scope nat_scope.

(** Output position [(b, x, y)] reads input position [(b, y, x)]. *)
Lemma src_at (a c b x y : nat) :
  x < c -> y < a -> permute_src a c (b * (c * a) + x * a + y) = b * (a * c) + y * c + x.
Proof.
  intros Hx Hy. unfold permute_src.
  assert (Hr : x * a + y < c * a) by nia.
  assert (E1 : (b * (c * a) + x * a + y) / (c * a) = b).
  { symmetry. apply (Nat.div_unique _ _ b (x * a + y)); [assumption|lia]. }
  assert (E2 : (b * (c * a) + x * a + y) mod (c * a) = x * a + y).
  { symmetry. apply (Nat.mod_unique _ _ b (x * a + y)); [assumption|lia]. }
  assert (E3 : (b * (c * a) + x * a + y) mod a = y).
  { symmetry. apply (Nat.mod_unique _ _ (b * c + x) y); [assumption|lia]. }
  assert (E4 : (x * a + y) / a = x).
  { symmetry. apply (Nat.div_unique _ _ x y); [assumption|lia]. }
  now rewrite E1, E2, E3, E4.
Qed.

(** Every index below [bs * (c * a)] is a position [(b, x, y)]. *)
Lemma position_of (bs a c i : nat) :
  i < bs * (c * a) ->
  exists b x y, b < bs /\ x < c /\ y < a /\ i = b * (c * a) + x * a + y.
Proof.
  intros Hi.
  assert (Ha : a <> 0) by (intros ->; lia).
  assert (Hca : c * a <> 0) by (intros E; rewrite E in Hi; lia).
  exists (i / (c * a)), (i mod (c * a) / a), (i mod (c * a) mod a).
  pose proof (Nat.div_mod_eq i (c * a)) as E1.
  pose proof (Nat.div_mod_eq (i mod (c * a)) a) as E2.
  pose proof (Nat.mod_upper_bound i (c * a) Hca) as B1.
  pose proof (Nat.mod_upper_bound (i mod (c * a)) a Ha) as B2.
  repeat split.
  - apply Nat.Div0.div_lt_upper_bound. lia.
  - apply Nat.Div0.div_lt_upper_bound. lia.
  - assumption.
  - lia.
Qed.

Lemma src_bound (bs a c i : nat) :
  i < bs * (c * a) -> permute_src a c i < bs * (a * c).
Proof.
  intros Hi. destruct (position_of _ _ _ Hi) as (b & x & y & Hb & Hx & Hy & ->).
  rewrite src_at by assumption.
  assert (y * c + x < a * c) by nia.
  assert (S b * (a * c) <= bs * (a * c)) by (apply Nat.mul_le_mono_r; lia).
  lia.
Qed.

(** Permuting twice gives the index back. *)
Lemma src_involutive (bs a c i : nat) :
  i < bs * (a * c) -> permute_src a c (permute_src c a i) = i.
Proof.
  intros Hi. destruct (position_of _ _ _ Hi) as (b & x & y & Hb & Hx & Hy & ->).
  rewrite src_at by assumption. now rewrite src_at by assumption.
Qed.

End Index.

(** ** Floats and kernel sizes *)

Module KernelFacts.

Import Float.

Lemma ceil_finite x : is_finite x = true -> exists c, ceil x = Ok c.
Proof.
  unfold ceil. destruct x as [s|s| |s m e]; simpl; try discriminate; intros _.
  - eauto.
  - destruct (0 <=? e); eauto.
Qed.

Lemma lt_zero_not_ge x : lt x zero = true -> ge x zero = false.
Proof.
  unfold lt, ge, zero, SFltb, SFleb.
  destruct x as [s|[]| |[] m e]; simpl; congruence.
Qed.

Lemma odd_step c :
  least_odd_above c (if c mod 2 =? 0 then c + 1 else c).
Proof.
  pose proof (Z.mod_pos_bound c 2 ltac:(lia)) as Hb.
  pose proof (Z.div_mod c 2 ltac:(lia)) as Hc.
  destruct (c mod 2 =? 0) eqn:E.
  - apply Z.eqb_eq in E. repeat split.
    + apply Z.odd_spec. exists (c / 2). lia.
    + lia.
    + intros j Hj Hle. apply Z.odd_spec in Hj as [m Hm]. lia.
  - apply Z.eqb_neq in E. repeat split.
    + apply Z.odd_spec. exists (c / 2). lia.
    + lia.
    + intros j _ Hle. exact Hle.
Qed.

Lemma old_formula c : c + 1 - c mod 2 = (if c mod 2 =? 0 then c + 1 else c).
Proof.
  pose proof (Z.mod_pos_bound c 2 ltac:(lia)) as Hb.
  destruct (c mod 2 =? 0) eqn:E.
  - apply Z.eqb_eq in E. lia.
  - apply Z.eqb_neq in E. lia.
Qed.

(** The two wrappers compute the same kernel size on every [blur_sigma],
    and fail alike where [math.ceil] fails. *)
Lemma old_kernel_size_eq blur_sigma :
  old_kernel_size blur_sigma = odd_kernel_size blur_sigma.
Proof.
  unfold old_kernel_size, odd_kernel_size.
  destruct (ceil (mul six blur_sigma)) as [c|e]; [|reflexivity].
  cbn [bind]. now rewrite old_formula.
Qed.

(** C10. For [blur_sigma >= 0], the kernel size of
    [seg_attention_wrapper_old],
    [ceil(6*blur_sigma) + 1 - ceil(6*blur_sigma) % 2], is the kernel size
    [seg_attention_wrapper] computes before the cap; where [6 * blur_sigma]
    is finite, so that [math.ceil] returns, both are the smallest odd integer
    that is at least [ceil(6*blur_sigma)]. *)
Theorem old_kernel_size_agrees :
  forall blur_sigma,
    ge blur_sigma zero = true ->
    old_kernel_size blur_sigma = odd_kernel_size blur_sigma /\
    (is_finite (mul six blur_sigma) = true ->
     exists c k,
       ceil (mul six blur_sigma) = Ok c /\
       old_kernel_size blur_sigma = Ok k /\
       odd_kernel_size blur_sigma = Ok k /\
       least_odd_above c k).
Proof.
  intros blur_sigma _. split; [apply old_kernel_size_eq|].
  intros Hfin. destruct (ceil_finite _ Hfin) as [c Hc].
  exists c, (if c mod 2 =? 0 then c + 1 else c).
  split; [assumption|]. rewrite old_kernel_size_eq.
  unfold odd_kernel_size. rewrite Hc. cbn [bind].
  repeat split; try apply odd_step.
Qed.

(** [blur_sigma = 10.0], the default: both kernel sizes are 61. *)
Lemma old_kernel_size_agrees_witness :
  old_kernel_size (of_Z 10) = odd_kernel_size (of_Z 10) /\
  exists c k,
    ceil (mul six (of_Z 10)) = Ok c /\
    old_kernel_size (of_Z 10) = Ok k /\
    odd_kernel_size (of_Z 10) = Ok k /\
    least_odd_above c k.
Proof.
  split.
  - apply (proj1 (old_kernel_size_agrees (of_Z 10) eq_refl)).
  - apply (proj2 (old_kernel_size_agrees (of_Z 10) eq_refl)). reflexivity.
Defined.

Section Capped.

Variable elem : Type.

(** C4. For [blur_sigma >= 0] and a spatial query of positive height and
    width, the kernel size the wrapper computes (the ceiling of
    [6 * blur_sigma], plus one when even, capped at
    [2 * min(height, width) - 1]) is odd and at most
    [2 * min(height, width) - 1]; none is computed only where
    [6 * blur_sigma] is not finite and [math.ceil] raises. *)
Theorem capped_kernel_size_odd_bounded :
  forall blur_sigma (q : Tensor elem) bs c h w,
    ge blur_sigma zero = true ->
    shape q = [bs; c; h; w] ->
    (0 < h)%nat -> (0 < w)%nat ->
    match capped_kernel_size blur_sigma q with
    | Ok k =>
        Z.odd k = true /\ k <= 2 * Z.min (Z.of_nat h) (Z.of_nat w) - 1
    | Raise _ => is_finite (mul six blur_sigma) = false
    end.
Proof.
  intros blur_sigma q bs c h w _ Hsh _ _.
  unfold capped_kernel_size, odd_kernel_size. rewrite Hsh.
  change (last2 [bs; c; h; w]) with (Ok (Z.of_nat h, Z.of_nat w)).
  destruct (is_finite (mul six blur_sigma)) eqn:Hfin.
  - destruct (ceil_finite _ Hfin) as [n Hn]. rewrite Hn. cbn [bind].
    set (m := Z.min (Z.of_nat h) (Z.of_nat w)).
    split; [|lia].
    destruct (odd_step n) as (Ho & _).
    destruct (Z.min_spec (if n mod 2 =? 0 then n + 1 else n) (2 * m - 1))
      as [[_ ->] | [_ ->]]; [assumption|].
    apply Z.odd_spec. exists (m - 1). lia.
  - unfold ceil.
    destruct (mul six blur_sigma) as [s|s| |s m e]; try discriminate Hfin;
      reflexivity.
Qed.

End Capped.

(** [blur_sigma = 10.0] on an 8 x 16 grid: the kernel size 61 is capped
    at 15. *)
Lemma capped_kernel_size_odd_bounded_witness :
  capped_kernel_size (of_Z 10) (mkTensor [1; 4; 8; 16]%nat (@nil Z)) = Ok 15
  /\ match capped_kernel_size (of_Z 10) (mkTensor [1; 4; 8; 16]%nat (@nil Z)) with
     | Ok k =>
         Z.odd k = true /\ k <= 2 * Z.min (Z.of_nat 8) (Z.of_nat 16) - 1
     | Raise _ => is_finite (mul six (of_Z 10)) = false
     end.
Proof.
  split; [reflexivity|].
  apply (@capped_kernel_size_odd_bounded Z (of_Z 10)
           (mkTensor [1; 4; 8; 16]%nat (@nil Z)) 1%nat 4%nat 8%nat 16%nat);
    try reflexivity; lia.
Defined.

End KernelFacts.

(** ** Reshaping and permuting *)

Module TensorFacts.

Local Open Scope list_scope.

Lemma known_size_app a b : known_size (a ++ b) = known_size a * known_size b.
Proof.
  induction a as [|d a IH]; simpl.
  - destruct (known_size b); reflexivity.
  - rewrite IH. destruct (d =? -1); ring.
Qed.

Lemma known_size_nonneg l : Forall (fun d => 0 <= d) l -> known_size l = prodZ l.
Proof.
  induction 1 as [|d l Hd _ IH]; simpl; [reflexivity|].
  destruct (d =? -1) eqn:E; [apply Z.eqb_eq in E; lia|]. now rewrite IH.
Qed.

Lemma prodZ_nonneg l : Forall (fun d => 0 <= d) l -> 0 <= prodZ l.
Proof. induction 1; simpl; lia. Qed.

Lemma no_hole l :
  Forall (fun d => 0 <= d) l ->
  existsb (fun d => d <? -1) l = false /\
  count_occ Z.eq_dec l (-1) = 0%nat /\
  forall v, map (fun d => if d =? -1 then v else d) l = l.
Proof.
  induction 1 as [|d l Hd _ (IH1 & IH2 & IH3)]; simpl; [auto|].
  destruct (d <? -1) eqn:E1; [apply Z.ltb_lt in E1; lia|].
  destruct (Z.eq_dec d (-1)) as [E2|E2]; [lia|].
  repeat split; try assumption.
  intros v. rewrite IH3.
  destruct (d =? -1) eqn:E3; [apply Z.eqb_eq in E3; lia|reflexivity].
Qed.

(** Shape inference with one [-1] among non-negative sizes. *)
Lemma infer_size_hole pre post n :
  Forall (fun d => 0 <= d) pre -> Forall (fun d => 0 <= d) post -> 0 <= n ->
  infer_size (pre ++ -1 :: post) n =
  let k := prodZ pre * prodZ post in
  if (0 <? k) && (n mod k =? 0) then Ok (pre ++ n / k :: post)
  else Raise RuntimeError.
Proof.
  intros Hpre Hpost Hn. cbn zeta. unfold infer_size.
  destruct (no_hole Hpre) as (E1 & C1 & M1).
  destruct (no_hole Hpost) as (E2 & C2 & M2).
  rewrite existsb_app, E1. cbn [existsb orb]. rewrite E2.
  change (-1 <? -1) with false. cbn [orb].
  rewrite count_occ_app, C1. cbn [count_occ].
  destruct (Z.eq_dec (-1) (-1)) as [_|F]; [|congruence].
  rewrite C2. cbn [Nat.add Nat.ltb Nat.leb Nat.eqb andb].
  rewrite known_size_app. cbn [known_size fold_right].
  change (-1 =? -1) with true. cbv iota.
  change (fold_right (fun d acc => if d =? -1 then acc else d * acc) 1 post)
    with (known_size post).
  rewrite (known_size_nonneg Hpre), (known_size_nonneg Hpost).
  pose proof (prodZ_nonneg Hpre) as P1. pose proof (prodZ_nonneg Hpost) as P2.
  set (k := prodZ pre * prodZ post).
  assert (Hk : 0 <= k) by (unfold k; lia).
  rewrite map_app. cbn [map]. change (-1 =? -1) with true. cbv iota.
  rewrite M1, M2.
  destruct (0 <? k) eqn:Ek.
  - apply Z.ltb_lt in Ek. cbn [andb].
    destruct (n mod k =? 0) eqn:Em.
    + rewrite orb_true_r.
      destruct (k =? 0) eqn:E0; [apply Z.eqb_eq in E0; lia|reflexivity].
    + rewrite orb_false_r.
      destruct (n =? k) eqn:Enk; [|reflexivity].
      apply Z.eqb_eq in Enk. subst n. rewrite Z.mod_same in Em by lia.
      discriminate.
  - apply Z.ltb_ge in Ek. assert (k = 0) by lia.
    cbn [andb]. rewrite orb_false_r.
    destruct (n =? k) eqn:Enk; [|reflexivity].
    destruct (k =? 0) eqn:E0; [reflexivity|apply Z.eqb_neq in E0; lia].
Qed.

(** A size below [-1], or a second [-1], is refused. *)
Lemma infer_size_negative pre post h n :
  Forall (fun d => 0 <= d) pre -> h < 0 ->
  (infer_size (pre ++ h :: -1 :: post) n = Raise RuntimeError) /\
  (infer_size (pre ++ -1 :: h :: post) n = Raise RuntimeError).
Proof.
  intros Hpre Hh. destruct (no_hole Hpre) as (E1 & C1 & _).
  unfold infer_size. rewrite !existsb_app, E1. cbn [existsb orb].
  change (-1 <? -1) with false. cbn [orb].
  destruct (h <? -1) eqn:E; [split; reflexivity|].
  apply Z.ltb_ge in E. assert (h = -1) by lia. subst h.
  destruct (existsb (fun d => d <? -1) post); [split; reflexivity|].
  rewrite !count_occ_app, C1. cbn [count_occ].
  destruct (Z.eq_dec (-1) (-1)) as [_|F]; [|congruence].
  split; reflexivity.
Qed.

Section Elements.

Variable elem : Type.

Lemma nth_tabulate {A : Type} (f : nat -> A) n i d :
  (i < n)%nat -> nth i (map f (seq 0 n)) d = f i.
Proof.
  intros Hi.
  rewrite (nth_indep _ d (f 0%nat)) by (now rewrite length_map, length_seq).
  rewrite map_nth. now rewrite seq_nth.
Qed.

Lemma gather_length (src : nat -> nat) n (xs : list elem) :
  xs <> [] -> List.length (gather src n xs) = n.
Proof.
  destruct xs as [|x xs]; [congruence|]. intros _.
  unfold gather. now rewrite length_map, length_seq.
Qed.

Lemma gather_nth (src : nat -> nat) n (xs : list elem) i d :
  (i < n)%nat -> (src i < List.length xs)%nat ->
  nth i (gather src n xs) d = nth (src i) xs d.
Proof.
  intros Hi Hs. destruct xs as [|x xs]; [simpl in Hs; lia|].
  unfold gather. rewrite nth_tabulate by assumption.
  now apply nth_indep.
Qed.

Lemma exact_division B a h :
  0 <= B -> 0 <= a -> 0 <= h ->
  ((0 <? B * h) && ((B * a) mod (B * h) =? 0))
  = ((0 <? B) && (0 <? h) && (a mod h =? 0))
  /\ (0 < B -> 0 < h -> (B * a) / (B * h) = a / h).
Proof.
  intros HB Ha Hh. split.
  - destruct (0 <? B) eqn:EB; [apply Z.ltb_lt in EB|apply Z.ltb_ge in EB].
    + destruct (0 <? h) eqn:Eh; [apply Z.ltb_lt in Eh|apply Z.ltb_ge in Eh].
      * assert (Hk : (0 <? B * h) = true) by (apply Z.ltb_lt; nia).
        rewrite Hk. cbn [andb].
        rewrite Z.mul_mod_distr_l by lia.
        destruct (a mod h =? 0) eqn:E.
        -- apply Z.eqb_eq in E. rewrite E. now rewrite Z.mul_0_r.
        -- apply Z.eqb_neq in E. apply Z.eqb_neq. nia.
      * assert (h = 0) by lia. subst h. now rewrite Z.mul_0_r.
    + assert (B = 0) by lia. subst B. reflexivity.
  - intros HB' Hh'. apply Z.div_mul_cancel_l; lia.
Qed.

Lemma nat_pos_mul (a b : nat) :
  (0 <? Z.of_nat a * Z.of_nat b) = (0 <? a * b)%nat.
Proof.
  destruct (0 <? a * b)%nat eqn:E.
  - apply Nat.ltb_lt in E. apply Z.ltb_lt. nia.
  - apply Nat.ltb_ge in E. apply Z.ltb_ge. nia.
Qed.

(** [reshape(bs, inner_dim, height, -1)] on a tensor of shape
    [(bs, inner_dim, area)]. *)
Lemma reshape_height (t : Tensor elem) bs dim area height :
  shape t = [bs; dim; area] ->
  reshape t [Z.of_nat bs; Z.of_nat dim; height; -1] =
  if (0 <? bs * dim)%nat && (0 <? height) && (Z.of_nat area mod height =? 0)
  then Ok (mkTensor [bs; dim; Z.to_nat height;
                     Z.to_nat (Z.of_nat area / height)] (data t))
  else Raise RuntimeError.
Proof.
  intros Hsh. unfold reshape. rewrite Hsh.
  destruct (Z.ltb_spec height 0) as [Hneg|Hpos].
  - destruct (@infer_size_negative [Z.of_nat bs; Z.of_nat dim] [] height
                (Z.of_nat (numel [bs; dim; area]))) as [E _];
      [repeat constructor; lia|assumption|].
    cbn [app] in E. rewrite E. cbn [bind].
    destruct (0 <? height) eqn:E'; [apply Z.ltb_lt in E'; lia|].
    now rewrite andb_false_r.
  - change [Z.of_nat bs; Z.of_nat dim; height; -1]
      with ([Z.of_nat bs; Z.of_nat dim; height] ++ -1 :: []).
    rewrite infer_size_hole by (repeat constructor; lia).
    cbn zeta. cbn [prodZ fold_right numel].
    replace (Z.of_nat bs * (Z.of_nat dim * (height * 1)) * 1)
      with (Z.of_nat bs * Z.of_nat dim * height) by ring.
    replace (Z.of_nat (bs * (dim * (area * 1))))
      with (Z.of_nat bs * Z.of_nat dim * Z.of_nat area) by lia.
    destruct (@exact_division (Z.of_nat bs * Z.of_nat dim) (Z.of_nat area) height)
      as [Hc Hd]; try lia.
    rewrite Hc, nat_pos_mul.
    destruct ((0 <? bs * dim)%nat && (0 <? height)
              && (Z.of_nat area mod height =? 0)) eqn:E; [|reflexivity].
    apply andb_true_iff in E as [E _]. apply andb_true_iff in E as [E1 E2].
    apply Nat.ltb_lt in E1. apply Z.ltb_lt in E2.
    rewrite Hd by nia. cbn [bind app map].
    now rewrite !Nat2Z.id.
Qed.

(** [reshape(bs, inner_dim, -1, width)] on a tensor of shape
    [(bs, inner_dim, area)]. *)
Lemma reshape_width (t : Tensor elem) bs dim area width :
  shape t = [bs; dim; area] ->
  reshape t [Z.of_nat bs; Z.of_nat dim; -1; width] =
  if (0 <? bs * dim)%nat && (0 <? width) && (Z.of_nat area mod width =? 0)
  then Ok (mkTensor [bs; dim; Z.to_nat (Z.of_nat area / width);
                     Z.to_nat width] (data t))
  else Raise RuntimeError.
Proof.
  intros Hsh. unfold reshape. rewrite Hsh.
  destruct (Z.ltb_spec width 0) as [Hneg|Hpos].
  - destruct (@infer_size_negative [Z.of_nat bs; Z.of_nat dim] [] width
                (Z.of_nat (numel [bs; dim; area]))) as [_ E];
      [repeat constructor; lia|assumption|].
    cbn [app] in E. rewrite E. cbn [bind].
    destruct (0 <? width) eqn:E'; [apply Z.ltb_lt in E'; lia|].
    now rewrite andb_false_r.
  - change [Z.of_nat bs; Z.of_nat dim; -1; width]
      with ([Z.of_nat bs; Z.of_nat dim] ++ -1 :: [width]).
    rewrite infer_size_hole by (repeat constructor; lia).
    cbn zeta. cbn [prodZ fold_right numel].
    replace (Z.of_nat bs * (Z.of_nat dim * 1) * (width * 1))
      with (Z.of_nat bs * Z.of_nat dim * width) by ring.
    replace (Z.of_nat (bs * (dim * (area * 1))))
      with (Z.of_nat bs * Z.of_nat dim * Z.of_nat area) by lia.
    destruct (@exact_division (Z.of_nat bs * Z.of_nat dim) (Z.of_nat area) width)
      as [Hc Hd]; try lia.
    rewrite Hc, nat_pos_mul.
    destruct ((0 <? bs * dim)%nat && (0 <? width)
              && (Z.of_nat area mod width =? 0)) eqn:E; [|reflexivity].
    apply andb_true_iff in E as [E _]. apply andb_true_iff in E as [E1 E2].
    apply Nat.ltb_lt in E1. apply Z.ltb_lt in E2.
    rewrite Hd by nia. cbn [bind app map].
    now rewrite !Nat2Z.id.
Qed.

(** [reshape(bs, inner_dim, -1)] on a tensor of shape
    [(bs, inner_dim, h, w)]. *)
Lemma reshape_flat (t : Tensor elem) bs dim h w :
  shape t = [bs; dim; h; w] -> (0 < bs * dim)%nat ->
  reshape t [Z.of_nat bs; Z.of_nat dim; -1]
  = Ok (mkTensor [bs; dim; (h * w)%nat] (data t)).
Proof.
  intros Hsh Hpos. unfold reshape. rewrite Hsh.
  change [Z.of_nat bs; Z.of_nat dim; -1]
    with ([Z.of_nat bs; Z.of_nat dim] ++ -1 :: []).
  rewrite infer_size_hole by (repeat constructor; lia).
  cbn zeta. cbn [prodZ fold_right numel].
  set (B := Z.of_nat bs * Z.of_nat dim).
  replace (Z.of_nat bs * (Z.of_nat dim * 1) * 1) with (B * 1) by (unfold B; ring).
  replace (Z.of_nat (bs * (dim * (h * (w * 1)))))
    with (B * Z.of_nat (h * w)) by (unfold B; lia).
  assert (HB : 0 < B) by (unfold B; nia).
  destruct (@exact_division B (Z.of_nat (h * w)) 1) as [Hc Hd]; try lia.
  rewrite Hc, Hd by lia.
  destruct (0 <? B) eqn:E; [|apply Z.ltb_ge in E; lia].
  rewrite Z.mod_1_r, Z.div_1_r. cbn [andb Z.ltb Z.eqb Z.compare bind app map].
  now rewrite !Nat2Z.id.
Qed.

Variable mean : list elem -> elem.
Variable libm_pow : Float.float -> Float.float -> Float.float.

Lemma to_spatial_height (q : Tensor elem) bs area dim ar height :
  shape q = [bs; area; dim] ->
  Float.ge ar Float.one = true ->
  rounded_height libm_pow area ar = Ok height ->
  to_spatial libm_pow q bs area dim ar =
  if exact_factor bs dim area height
  then Ok (mkTensor [bs; dim; Z.to_nat height;
                     Z.to_nat (Z.of_nat area / height)]
                    (permuted bs area dim (data q)))
  else Raise RuntimeError.
Proof.
  intros Hsh Hge Hh. unfold to_spatial. rewrite Hge, Hh. cbn [bind].
  unfold permute_0_2_1. rewrite Hsh. cbn [bind].
  now rewrite (@reshape_height _ bs dim area height).
Qed.

Lemma to_spatial_width (q : Tensor elem) bs area dim ar width :
  shape q = [bs; area; dim] ->
  Float.ge ar Float.one = false ->
  rounded_width libm_pow area ar = Ok width ->
  to_spatial libm_pow q bs area dim ar =
  if exact_factor bs dim area width
  then Ok (mkTensor [bs; dim; Z.to_nat (Z.of_nat area / width);
                     Z.to_nat width]
                    (permuted bs area dim (data q)))
  else Raise RuntimeError.
Proof.
  intros Hsh Hge Hw. unfold to_spatial. rewrite Hge, Hw. cbn [bind].
  unfold permute_0_2_1. rewrite Hsh. cbn [bind].
  now rewrite (@reshape_width _ bs dim area width).
Qed.

Lemma exact_factor_product bs dim area side :
  exact_factor bs dim area side = true ->
  (0 < bs * dim)%nat /\
  (Z.to_nat side * Z.to_nat (Z.of_nat area / side))%nat = area.
Proof.
  unfold exact_factor. intros H.
  apply andb_true_iff in H as [H H3]. apply andb_true_iff in H as [H1 H2].
  apply Nat.ltb_lt in H1. apply Z.ltb_lt in H2. apply Z.eqb_eq in H3.
  split; [assumption|].
  pose proof (Z.div_mod (Z.of_nat area) side ltac:(lia)) as Hd.
  rewrite H3, Z.add_0_r in Hd.
  assert (0 <= Z.of_nat area / side) by (apply Z.div_pos; lia).
  rewrite <- Z2Nat.inj_mul by lia. rewrite <- Hd. apply Nat2Z.id.
Qed.

(** A successful reshape yields a grid [h x w] with [h * w = area]. *)
Lemma to_spatial_inv (q qs : Tensor elem) bs area dim ar :
  shape q = [bs; area; dim] ->
  to_spatial libm_pow q bs area dim ar = Ok qs ->
  exists h w,
    qs = mkTensor [bs; dim; h; w] (permuted bs area dim (data q)) /\
    (h * w)%nat = area /\ (0 < bs * dim)%nat.
Proof.
  intros Hsh H. destruct (Float.ge ar Float.one) eqn:Hge.
  - destruct (rounded_height libm_pow area ar) as [height|e] eqn:Hh.
    + rewrite (@to_spatial_height q bs area dim ar height Hsh Hge Hh) in H.
      destruct (exact_factor bs dim area height) eqn:E; [|discriminate].
      injection H as <-.
      destruct (@exact_factor_product _ _ _ _ E) as [Hp Hm]. eauto.
    + unfold to_spatial in H. rewrite Hge, Hh in H. discriminate.
  - destruct (rounded_width libm_pow area ar) as [width|e] eqn:Hw.
    + rewrite (@to_spatial_width q bs area dim ar width Hsh Hge Hw) in H.
      destruct (exact_factor bs dim area width) eqn:E; [|discriminate].
      injection H as <-.
      destruct (@exact_factor_product _ _ _ _ E) as [Hp Hm].
      rewrite Nat.mul_comm in Hm. eauto.
    + unfold to_spatial in H. rewrite Hge, Hw in H. discriminate.
Qed.

Lemma spatial_query_inv (q qs : Tensor elem) opts heads bs dim :
  spatial_query libm_pow q opts = Ok (heads, bs, dim, qs) ->
  exists area h w,
    shape q = [bs; area; dim] /\
    qs = mkTensor [bs; dim; h; w] (permuted bs area dim (data q)) /\
    (h * w)%nat = area /\ (0 < bs * dim)%nat.
Proof.
  unfold spatial_query. intros H.
  destruct (lookup (n_heads opts)) as [hd|e]; [|discriminate]. cbn [bind] in H.
  destruct (shape q) as [|b [|a [|c [|x l]]]] eqn:Hsh; try discriminate.
  cbn [unpack3 bind] in H.
  destruct (lookup (original_shape opts)) as [osh|e]; [|discriminate].
  cbn [bind] in H.
  destruct (unpack_hw osh) as [[ho wo]|e]; [|discriminate]. cbn [bind] in H.
  destruct (Float.int_truediv wo ho) as [ar|e]; [|discriminate].
  cbn [bind] in H.
  destruct (to_spatial libm_pow q b a c ar) as [t|e] eqn:Ht; [|discriminate].
  cbn [bind] in H. injection H as <- <- <- <-.
  destruct (@to_spatial_inv q t b a c ar Hsh Ht) as (h & w & Hq & Hm & Hp).
  exists a, h, w. auto.
Qed.

Lemma from_spatial_grid bs dim h w (xs : list elem) :
  (0 < bs * dim)%nat ->
  from_spatial (mkTensor [bs; dim; h; w] xs) bs dim
  = Ok (mkTensor [bs; (h * w)%nat; dim]
                 (gather (permute_src dim (h * w)) (bs * (h * w) * dim) xs)).
Proof.
  intros Hp. unfold from_spatial.
  rewrite (@reshape_flat _ bs dim h w) by (auto). cbn [bind].
  reflexivity.
Qed.

Lemma permuted_length bs area dim (xs : list elem) :
  xs <> [] -> List.length (permuted bs area dim xs) = (bs * dim * area)%nat.
Proof. apply gather_length. Qed.

Lemma permuted_nth bs area dim (xs : list elem) b x y d :
  List.length xs = (bs * (area * dim))%nat ->
  (b < bs)%nat -> (x < dim)%nat -> (y < area)%nat ->
  nth (b * (dim * area) + x * area + y) (permuted bs area dim xs) d
  = nth (b * (area * dim) + y * dim + x) xs d.
Proof.
  intros Hl Hb Hx Hy. unfold permuted.
  assert (Hi : (b * (dim * area) + x * area + y < bs * (dim * area))%nat).
  { assert (x * area + y < dim * area)%nat by nia.
    assert (S b * (dim * area) <= bs * (dim * area))%nat
      by (apply Nat.mul_le_mono_r; lia).
    lia. }
  rewrite gather_nth.
  - now rewrite Index.src_at.
  - lia.
  - rewrite Hl. now apply Index.src_bound.
Qed.

(** Lines 39-44 followed by lines 73-74 give the elements back. *)
Lemma permuted_twice bs area dim (xs : list elem) :
  List.length xs = (bs * (area * dim))%nat ->
  gather (permute_src dim area) (bs * area * dim) (permuted bs area dim xs) = xs.
Proof.
  intros Hl. destruct xs as [|x0 xs'] eqn:Ex; [reflexivity|].
  rewrite <- Ex in *. assert (Hne : xs <> []) by (rewrite Ex; discriminate).
  assert (Hpne : permuted bs area dim xs <> []).
  { intros E. pose proof (@permuted_length bs area dim xs Hne) as L.
    rewrite E in L. simpl in L. rewrite Ex in Hl. simpl in Hl. lia. }
  apply (nth_ext _ _ x0 x0).
  - rewrite gather_length by assumption. lia.
  - intros i Hi. rewrite gather_length in Hi by assumption.
    assert (Hi' : (i < bs * (area * dim))%nat) by lia.
    pose proof (@Index.src_bound bs dim area i Hi') as Hb.
    rewrite gather_nth; [|assumption|rewrite permuted_length by assumption; lia].
    unfold permuted. rewrite gather_nth; [|lia|].
    + now rewrite (@Index.src_involutive bs area dim i) by lia.
    + rewrite (@Index.src_involutive bs area dim i) by lia. lia.
Qed.

Lemma product_pos (a b c : nat) :
  (0 < a)%nat -> (0 < b)%nat -> (0 < c)%nat -> (0 < a * (b * c))%nat.
Proof. intros. repeat apply Nat.mul_pos_pos; assumption. Qed.

Lemma well_formed_length (q : Tensor elem) bs area dim :
  well_formed q -> shape q = [bs; area; dim] ->
  List.length (data q) = (bs * (area * dim))%nat.
Proof.
  unfold well_formed. intros Hw Hsh. rewrite Hw, Hsh. simpl. lia.
Qed.

(** The slice of the permuted elements for one (batch, channel) pair
    lists the elements of [q] for that pair, position by position. *)
Lemma slice_of_permuted bs area dim (xs : list elem) b c d :
  List.length xs = (bs * (area * dim))%nat ->
  (b < bs)%nat -> (c < dim)%nat ->
  firstn area (skipn ((b * dim + c) * area) (permuted bs area dim xs))
  = map (fun p => nth (b * (area * dim) + p * dim + c) xs d) (seq 0 area).
Proof.
  intros Hl Hb Hc.
  destruct area as [|a'] eqn:Ea; [reflexivity|]. rewrite <- Ea in *.
  assert (Ha : (0 < area)%nat) by lia.
  assert (Hne : xs <> []).
  { intros ->. simpl in Hl.
    pose proof (@product_pos bs area dim ltac:(lia) Ha ltac:(lia)). lia. }
  assert (Hk : ((b * dim + c) * area + area <= bs * dim * area)%nat).
  { assert (S (b * dim + c) <= bs * dim)%nat by nia.
    replace ((b * dim + c) * area + area)%nat
      with (S (b * dim + c) * area)%nat by lia.
    now apply Nat.mul_le_mono_r. }
  apply (nth_ext _ _ d d).
  - rewrite length_firstn, length_skipn, permuted_length by assumption.
    rewrite length_map, length_seq. lia.
  - intros i Hi.
    rewrite length_firstn, length_skipn, permuted_length in Hi by assumption.
    assert (Hia : (i < area)%nat) by lia.
    rewrite nth_firstn.
    destruct (i <? area)%nat eqn:E; [|apply Nat.ltb_ge in E; lia].
    rewrite nth_skipn, nth_tabulate by assumption.
    replace ((b * dim + c) * area + i)%nat
      with (b * (dim * area) + c * area + i)%nat by lia.
    now apply permuted_nth.
Qed.

Lemma collapsed_nth bs area dim (xs : list elem) b p c d :
  List.length xs = (bs * (area * dim))%nat ->
  (b < bs)%nat -> (p < area)%nat -> (c < dim)%nat ->
  nth (b * (area * dim) + p * dim + c) (collapsed mean bs area dim xs) d
  = mean (map (fun p' => nth (b * (area * dim) + p' * dim + c) xs d)
              (seq 0 area)).
Proof.
  intros Hl Hb Hp Hc. unfold collapsed.
  set (X := permuted bs area dim xs).
  set (M := map (fun i => mean (firstn area (skipn (i * area) X)))
                (seq 0 (bs * dim))).
  assert (HM : List.length M = (bs * dim)%nat)
    by (unfold M; now rewrite length_map, length_seq).
  assert (HMne : M <> []) by (intros E; rewrite E in HM; simpl in HM; nia).
  set (Y := gather (fun i => (i / area)%nat) (bs * dim * area) M).
  assert (HY : List.length Y = (bs * dim * area)%nat)
    by (unfold Y; now apply gather_length).
  assert (Hj : (b * (area * dim) + p * dim + c < bs * (area * dim))%nat).
  { assert (p * dim + c < area * dim)%nat by nia.
    assert (S b * (area * dim) <= bs * (area * dim))%nat
      by (apply Nat.mul_le_mono_r; lia).
    lia. }
  pose proof (@Index.src_bound bs dim area _ Hj) as Hsb.
  rewrite gather_nth; [|lia|rewrite HY; lia].
  rewrite Index.src_at in * by assumption.
  unfold Y. rewrite gather_nth; [|lia|].
  - assert (Hq : ((b * (dim * area) + c * area + p) / area = b * dim + c)%nat).
    { symmetry. apply (Nat.div_unique _ _ (b * dim + c) p); [assumption|lia]. }
    rewrite Hq. unfold M. rewrite nth_tabulate by nia.
    f_equal. now apply slice_of_permuted.
  - rewrite HM. apply Nat.Div0.div_lt_upper_bound. lia.
Qed.

Lemma collapsed_length bs area dim (xs : list elem) :
  (0 < bs * dim)%nat ->
  List.length (collapsed mean bs area dim xs) = (bs * (area * dim))%nat.
Proof.
  intros Hp. unfold collapsed.
  destruct area as [|a'] eqn:Ea.
  - replace (bs * 0 * dim)%nat with 0%nat by lia.
    replace (bs * (0 * dim))%nat with 0%nat by lia.
    unfold gather at 1. now destruct (gather _ _ _).
  - rewrite <- Ea.
    set (M := map _ (seq 0 (bs * dim))).
    assert (HM : M <> []).
    { intros E. apply (f_equal (@List.length elem)) in E.
      unfold M in E. rewrite length_map, length_seq in E. simpl in E. lia. }
    assert (HY : gather (fun i => (i / area)%nat) (bs * dim * area) M <> []).
    { intros E. apply (f_equal (@List.length elem)) in E.
      rewrite gather_length in E by assumption. simpl in E. nia. }
    rewrite gather_length by assumption. lia.
Qed.

Variable GaussianBlur2d :
  Z * Z -> Float.float * Float.float -> string -> Tensor elem ->
  result (Tensor elem).

Lemma tensor_eta (q : Tensor elem) sh :
  shape q = sh -> mkTensor sh (data q) = q.
Proof. destruct q; simpl; intros <-; reflexivity. Qed.

(** C9. [pag_perturbed_attention] returns [v] itself, whatever the shapes
    and contents of its arguments; it is a total function, with no state to
    change and no error to raise. *)
Theorem pag_perturbed_attention_returns_v :
  forall (q k v : Tensor elem) (extra_options : ExtraOptions)
         (mask : option (Tensor elem)),
    pag_perturbed_attention q k v extra_options mask = v.
Proof. reflexivity. Qed.

(** C2. For [blur_sigma >= 0] and a well-formed query whose spatial reshape
    succeeds: when the capped kernel size is below 3, reshaping back gives
    [q] itself, and the wrapper calls the attention function on [q]
    unchanged. *)
Theorem small_kernel_passes_query :
  forall (attention : Tensor elem -> Tensor elem -> Tensor elem -> Z ->
                      result (Tensor elem))
         blur_sigma border_mode q k v extra_options mask
         heads bs inner_dim qs kernel_size,
    well_formed q ->
    Float.ge blur_sigma Float.zero = true ->
    spatial_query libm_pow q extra_options = Ok (heads, bs, inner_dim, qs) ->
    capped_kernel_size blur_sigma qs = Ok kernel_size ->
    kernel_size < 3 ->
    from_spatial qs bs inner_dim = Ok q /\
    seg_attention_wrapper mean libm_pow GaussianBlur2d attention
      blur_sigma border_mode q k v extra_options mask
    = attention q k v heads.
Proof.
  intros attention blur_sigma border_mode q k v opts mask heads bs dim qs ks
         Hwf Hge Hsq Hks Hlt.
  destruct (spatial_query_inv _ _ Hsq) as (area & h & w & Hsh & Hqs & Hm & Hp).
  assert (Hback : from_spatial qs bs dim = Ok q).
  { rewrite Hqs, from_spatial_grid by assumption. rewrite Hm.
    rewrite permuted_twice by (now apply well_formed_length).
    now rewrite tensor_eta. }
  split; [assumption|].
  unfold seg_attention_wrapper, seg_perturbed_attention, perturbed_query. rewrite Hsq. cbn [bind].
  unfold perturb. rewrite Hge, Hks. cbn [bind].
  destruct (3 <=? ks) eqn:E; [apply Z.leb_le in E; lia|].
  cbn [bind]. rewrite Hback. reflexivity.
Qed.

(** C3. For [blur_sigma < 0] and a well-formed query whose spatial reshape
    succeeds, the wrapper calls the attention function on a query of the
    shape of [q] whose element at (batch [b], position [p], channel [c]) is
    the mean of the elements of [q] at [(b, p', c)] over all positions
    [p']. *)
Theorem negative_sigma_collapses_to_mean :
  forall (attention : Tensor elem -> Tensor elem -> Tensor elem -> Z ->
                      result (Tensor elem))
         blur_sigma border_mode q k v extra_options mask
         heads bs inner_dim qs,
    well_formed q ->
    Float.lt blur_sigma Float.zero = true ->
    spatial_query libm_pow q extra_options = Ok (heads, bs, inner_dim, qs) ->
    exists area q',
      shape q = [bs; area; inner_dim] /\
      seg_attention_wrapper mean libm_pow GaussianBlur2d attention
        blur_sigma border_mode q k v extra_options mask
      = attention q' k v heads /\
      shape q' = [bs; area; inner_dim] /\
      well_formed q' /\
      forall b p c d,
        (b < bs)%nat -> (p < area)%nat -> (c < inner_dim)%nat ->
        nth (b * (area * inner_dim) + p * inner_dim + c) (data q') d
        = mean (map (fun p' =>
                       nth (b * (area * inner_dim) + p' * inner_dim + c)
                           (data q) d)
                    (seq 0 area)).
Proof.
  intros attention blur_sigma border_mode q k v opts mask heads bs dim qs
         Hwf Hlt Hsq.
  destruct (spatial_query_inv _ _ Hsq) as (area & h & w & Hsh & Hqs & Hm & Hp).
  pose proof (well_formed_length Hwf Hsh) as Hl.
  exists area, (mkTensor [bs; area; dim] (collapsed mean bs area dim (data q))).
  split; [assumption|]. split; [|split; [reflexivity|split]].
  - unfold seg_attention_wrapper, seg_perturbed_attention, perturbed_query. rewrite Hsq. cbn [bind].
    unfold perturb. rewrite (KernelFacts.lt_zero_not_ge _ Hlt).
    rewrite Hqs. unfold mean_last2, assign_all. cbn [shape data bind].
    rewrite !Nat.eqb_refl. cbn [andb bind].
    rewrite from_spatial_grid by assumption. cbn [bind].
    unfold collapsed. rewrite <- Hm.
    replace (bs * dim * h * w)%nat with (bs * dim * (h * w))%nat by lia.
    reflexivity.
  - unfold well_formed. cbn [shape data numel fold_right].
    rewrite collapsed_length by assumption. lia.
  - intros b p c d Hb Hpp Hc. cbn [data]. now apply collapsed_nth.
Qed.

(** C5, as amended.  For [q] of shape (batch, area, channels) and
    [aspectRatio >= 1.0], with [height = round((area / aspectRatio) ** 0.5)]:
    the reshape succeeds exactly when batch * channels is positive, [height]
    is positive and [height] divides [area], and the spatial form then has
    height [height] and width [area / height]; otherwise it raises.  For
    [aspectRatio < 1.0] the same holds with the roles of height and width
    swapped.  With [aspectRatio = 2.0] and [area = 8] the height is 2 and the
    width is 4. *)
Theorem spatial_reshape_exact :
  (forall (q : Tensor elem) bs area inner_dim aspect_ratio,
     shape q = [bs; area; inner_dim] ->
     (Float.ge aspect_ratio Float.one = true ->
      forall height,
        rounded_height libm_pow area aspect_ratio = Ok height ->
        to_spatial libm_pow q bs area inner_dim aspect_ratio =
        if exact_factor bs inner_dim area height
        then Ok (mkTensor [bs; inner_dim; Z.to_nat height;
                           Z.to_nat (Z.of_nat area / height)]
                          (permuted bs area inner_dim (data q)))
        else Raise RuntimeError) /\
     (Float.ge aspect_ratio Float.one = false ->
      forall width,
        rounded_width libm_pow area aspect_ratio = Ok width ->
        to_spatial libm_pow q bs area inner_dim aspect_ratio =
        if exact_factor bs inner_dim area width
        then Ok (mkTensor [bs; inner_dim; Z.to_nat (Z.of_nat area / width);
                           Z.to_nat width]
                          (permuted bs area inner_dim (data q)))
        else Raise RuntimeError)) /\
  (rounded_height Float.sqrt_pow 8 (Float.of_Z 2) = Ok 2 /\
   forall (q : Tensor elem) bs inner_dim,
     shape q = [bs; 8%nat; inner_dim] -> (0 < bs * inner_dim)%nat ->
     to_spatial Float.sqrt_pow q bs 8 inner_dim (Float.of_Z 2)
     = Ok (mkTensor [bs; inner_dim; 2%nat; 4%nat]
                    (permuted bs 8 inner_dim (data q)))).
Proof.
  split; [|split].
  - intros q bs area dim ar Hsh. split.
    + intros Hge height Hh. now apply to_spatial_height.
    + intros Hge width Hw. now apply to_spatial_width.
  - vm_compute. reflexivity.
  - intros q bs dim Hsh Hp.
    unfold to_spatial.
    change (Float.ge (Float.of_Z 2) Float.one) with true. cbv iota.
    change (rounded_height Float.sqrt_pow 8 (Float.of_Z 2)) with (Ok 2).
    cbn [bind]. unfold permute_0_2_1. rewrite Hsh. cbn [bind].
    rewrite (@reshape_height _ bs dim 8%nat 2) by reflexivity.
    apply Nat.ltb_lt in Hp. rewrite Hp. reflexivity.
Qed.

End Elements.

(** The query of shape (1, 8, 2) with [blur_sigma = 0.0]: the kernel size
    is 1. *)
Lemma small_kernel_passes_query_witness :
  seg_attention_wrapper int_mean Float.sqrt_pow identity_blur query_attention
    Float.zero "reflect" example_query example_query example_query
    wide_options None
  = query_attention example_query example_query example_query 8.
Proof.
  refine (proj2 (@small_kernel_passes_query Z int_mean Float.sqrt_pow
            identity_blur query_attention Float.zero "reflect"%string
            example_query example_query example_query wide_options None
            8 1%nat 2%nat
            (mkTensor [1; 2; 2; 4]%nat
               [1; 3; 5; 7; 9; 11; 13; 15; 2; 4; 6; 8; 10; 12; 14; 16])
            1 _ _ _ _ _)); try reflexivity.
Defined.

(** The query of shape (1, 8, 2) with [blur_sigma = -1.0]: channel 0 holds
    the odd numbers up to 15, of mean 8, channel 1 the even ones, of
    mean 9. *)
Lemma negative_sigma_collapses_to_mean_witness :
  exists area q',
    shape example_query = [1%nat; area; 2%nat] /\
    seg_attention_wrapper int_mean Float.sqrt_pow identity_blur query_attention
      (Float.of_Z (-1)) "reflect" example_query example_query example_query
      wide_options None
    = query_attention q' example_query example_query 8 /\
    shape q' = [1%nat; area; 2%nat] /\
    well_formed q' /\
    forall b p c d,
      (b < 1)%nat -> (p < area)%nat -> (c < 2)%nat ->
      nth (b * (area * 2) + p * 2 + c) (data q') d
      = int_mean (map (fun p' => nth (b * (area * 2) + p' * 2 + c)
                                     (data example_query) d)
                      (seq 0 area)).
Proof.
  refine (@negative_sigma_collapses_to_mean Z int_mean Float.sqrt_pow
            identity_blur query_attention (Float.of_Z (-1)) "reflect"%string
            example_query example_query example_query wide_options None
            8 1%nat 2%nat
            (mkTensor [1; 2; 2; 4]%nat
               [1; 3; 5; 7; 9; 11; 13; 15; 2; 4; 6; 8; 10; 12; 14; 16])
            _ _ _); reflexivity.
Defined.

(** Area 8 at aspect ratio 2.0, and area 8 at aspect ratio 0.5. *)
Lemma spatial_reshape_exact_witness :
  to_spatial Float.sqrt_pow example_query 1 8 2 (Float.of_Z 2)
  = Ok (mkTensor [1; 2; 2; 4]%nat
          [1; 3; 5; 7; 9; 11; 13; 15; 2; 4; 6; 8; 10; 12; 14; 16])
  /\ to_spatial Float.sqrt_pow example_query 1 8 2 Float.half
     = Ok (mkTensor [1; 2; 4; 2]%nat
             [1; 3; 5; 7; 9; 11; 13; 15; 2; 4; 6; 8; 10; 12; 14; 16]).
Proof.
  split.
  - exact (proj1 (proj1 (@spatial_reshape_exact Z Float.sqrt_pow)
                    example_query 1%nat 8%nat 2%nat (Float.of_Z 2) eq_refl)
             eq_refl 2 eq_refl).
  - exact (proj2 (proj1 (@spatial_reshape_exact Z Float.sqrt_pow)
                    example_query 1%nat 8%nat 2%nat Float.half eq_refl)
             eq_refl 2 eq_refl).
Defined.

(** C5 as stated fails: with area 10 and aspect ratio 1.0 the height is
    [round(sqrt(10)) = 3], which does not divide 10; no remainder is
    absorbed, the reshape raises and so does the wrapper. *)
Lemma reshape_fails_on_remainder :
  shape query_of_area_10 = [1; 10; 1]%nat /\
  rounded_height Float.sqrt_pow 10 Float.one = Ok 3 /\
  to_spatial Float.sqrt_pow query_of_area_10 1 10 1 Float.one
  = Raise RuntimeError /\
  seg_attention_wrapper int_mean Float.sqrt_pow identity_blur query_attention
    Float.one "reflect" query_of_area_10 query_of_area_10 query_of_area_10
    square_options None
  = Raise RuntimeError.
Proof. repeat split; vm_compute; reflexivity. Qed.

End TensorFacts.

(** ** More on the selector parser *)

Module ParserFacts.

Import Py Text StrFacts IntFacts Grammar Selectors.

Local Open Scope list_scope.

Lemma getitem_out_of_range {A : Type} (xs : list A) (i : Z) :
  i < - Z.of_nat (List.length xs) \/ Z.of_nat (List.length xs) <= i ->
  getitem xs i = Raise IndexError.
Proof.
  intros H. unfold getitem.
  destruct (i <? 0) eqn:E; [apply Z.ltb_lt in E|apply Z.ltb_ge in E].
  - destruct (i + Z.of_nat (List.length xs) <? 0) eqn:E1; [reflexivity|].
    apply Z.ltb_ge in E1.
    destruct (Z.of_nat (List.length xs) <=? i + Z.of_nat (List.length xs)) eqn:E2;
      [reflexivity|]. apply Z.leb_gt in E2. lia.
  - destruct (i <? 0) eqn:E1; [apply Z.ltb_lt in E1; lia|].
    destruct (Z.of_nat (List.length xs) <=? i) eqn:E2; [reflexivity|].
    apply Z.leb_gt in E2. lia.
Qed.

Lemma getitem_In {A : Type} (xs : list A) (i : Z) (x : A) :
  getitem xs i = Ok x -> In x xs.
Proof.
  unfold getitem.
  destruct (_ || _); [discriminate|].
  destruct (nth_error xs _) eqn:E; [|discriminate].
  intros H. injection H as <-. eapply nth_error_In. eassumption.
Qed.

Lemma getitem_from_end {A : Type} (xs : list A) (k : Z) (x : A) :
  1 <= k <= Z.of_nat (List.length xs) ->
  nth_error xs (List.length xs - Z.to_nat k) = Some x ->
  getitem xs (- k) = Ok x.
Proof.
  intros Hk Hn. unfold getitem.
  destruct (- k <? 0) eqn:E; [|apply Z.ltb_ge in E; lia].
  destruct (- k + Z.of_nat (List.length xs) <? 0) eqn:E1;
    [apply Z.ltb_lt in E1; lia|].
  destruct (Z.of_nat (List.length xs) <=? - k + Z.of_nat (List.length xs)) eqn:E2;
    [apply Z.leb_le in E2; lia|].
  cbn [orb].
  replace (Z.to_nat (- k + Z.of_nat (List.length xs)))
    with (List.length xs - Z.to_nat k)%nat by lia.
  now rewrite Hn.
Qed.

(** [int] reads a minus sign followed by digits as the opposite number. *)
Lemma int_minus_digits lim d :
  is_digits d = true -> within_limit lim d = true ->
  Py.int lim (String "-" d) = Ok (- decimal d).
Proof.
  intros Hd Hl. pose proof (int_digits lim d Hd Hl) as H.
  apply andb_true_iff in Hd as [Hne Hd].
  destruct d as [|c r]; [discriminate|].
  pose proof Hd as Hd'. simpl in Hd'. apply andb_true_iff in Hd' as [Hc _].
  destruct (digit_char c Hc) as (_ & Hsp & _ & _ & Hplus & Hminus & _).
  unfold Py.int in *. cbn [skip_int_space] in *.
  rewrite Hsp, Hplus, Hminus in H.
  change (int_isspace "-") with false. cbv iota.
  change (Ascii.eqb "-" "+") with false. change (Ascii.eqb "-" "-") with true.
  cbv iota.
  destruct (scan_int (String c r) AtStart 0 0) as [[v n]|]; [|discriminate].
  destruct ((640 <? n)%nat && (0 <? lim)%nat && (lim <? n)%nat);
    [discriminate|].
  injection H as ->. reflexivity.
Qed.

Lemma strip_no_space t : all_chars not_space t = true -> strip t = t.
Proof.
  intros H.
  pose proof (@strip_padded EmptyString t EmptyString eq_refl eq_refl H) as E.
  change (EmptyString ++ t ++ EmptyString)%string
    with (t ++ EmptyString)%string in E.
  now rewrite append_nil_r in E.
Qed.

Section Calls.

Variable lim : nat.
Variable model : Model.
Variable raw : RawBlocks.
Hypothesis collected : collect_blocks lim (mkRaw [] [] []) model = Ok raw.

Lemma call_unfold s :
  parse_unet_blocks lim model s
  = ('(_, output) <- parse_loop lim (grouped raw) None (unet_blocks_of s) [] ;;
     Ok output).
Proof. unfold parse_unet_blocks. now rewrite collected. Qed.



(** An empty token anywhere (two commas in a row, a trailing comma), once
    the tokens before it are parsed: the call raises IndexError. *)
Theorem empty_token_index_error :
  forall s pre post loc output,
    unet_blocks_of s = pre ++ EmptyString :: post ->
    parse_loop lim (grouped raw) None pre [] = Ok (loc, output) ->
    parse_unet_blocks lim model s = Raise IndexError.
Proof.
  intros s pre post loc output Hs Hpre.
  rewrite call_unfold, Hs, parse_loop_app, Hpre. reflexivity.
Qed.


Lemma parse_loop_length bl ts : forall loc output loc' output',
  parse_loop lim bl loc ts output = Ok (loc', output') ->
  List.length output' = (List.length output + List.length ts)%nat.
Proof.
  induction ts as [|t ts IH]; intros loc output loc' output' H.
  - simpl in H. injection H as _ <-. simpl. lia.
  - cbn [parse_loop] in H.
    destruct (parse_block lim bl loc t) as [[l a]|e]; [|discriminate].
    cbn [bind] in H. apply IH in H. rewrite H, length_app. simpl. lia.
Qed.

(** A call that returns gives one address for each piece of the selector
    between commas. *)
Theorem one_address_per_token :
  forall s output,
    parse_unet_blocks lim model s = Ok output ->
    List.length output = List.length (split "," s).
Proof.
  intros s output H. rewrite call_unfold in H.
  destruct (parse_loop lim (grouped raw) None (unet_blocks_of s) [])
    as [[loc out]|e] eqn:E; [|discriminate].
  cbn [bind] in H. injection H as <-.
  apply parse_loop_length in E. rewrite E. unfold unet_blocks_of.
  now rewrite length_map.
Qed.

(** A single token with a negative position: [-k] addresses the [k]-th
    group from the end of its layer, as list indexing does. *)
Theorem negative_position_from_end :
  forall c d g,
    is_layer_char c = true ->
    is_digits d = true -> within_limit lim d = true ->
    let groups := snd (layer_of (grouped raw) c) in
    1 <= decimal d <= Z.of_nat (List.length groups) ->
    nth_error groups (List.length groups - Z.to_nat (decimal d)) = Some g ->
    parse_unet_blocks lim model (String c (String "-" d))
    = Ok [(fst (layer_of (grouped raw) c), fst g, None)].
Proof.
  intros c d g Hc Hd Hl groups Hk Hn.
  assert (Hdot : all_chars (not_char ".") (String "-" d) = true).
  { cbn [all_chars]. now rewrite digits_no_dot. }
  assert (Htok : all_chars token_char (String c (String "-" d)) = true).
  { cbn [all_chars].
    assert (token_char c = true)
      by (destruct (layer_char_cases _ Hc) as [-> | [-> | ->]]; reflexivity).
    rewrite H. change (token_char "-") with true. cbn [andb].
    apply digits_chars; [|assumption].
    intros x Hx. unfold token_char, not_space, not_char.
    destruct (digit_char x Hx) as (-> & _ & -> & _). reflexivity. }
  rewrite call_unfold. unfold unet_blocks_of.
  rewrite split_no_sep
    by (eapply all_chars_weaken; [|exact Htok];
        intros x Hx; now apply andb_true_iff in Hx as [_ Hx]).
  cbn [map].
  rewrite strip_no_space
    by (eapply all_chars_weaken; [|exact Htok];
        intros x Hx; now apply andb_true_iff in Hx as [Hx _]).
  cbn [parse_loop]. unfold parse_block.
  rewrite (split_no_sep _ _ Hdot), (match_name_layer _ _ None Hc).
  destruct (layer_of (grouped raw) c) as [layer gs] eqn:El.
  cbn [snd] in groups. subst groups.
  cbn [List.length Nat.leb load_cur_blocks load_layer bind].
  rewrite getitem_0. cbn [bind].
  rewrite (@int_minus_digits lim d Hd Hl). cbn [bind].
  rewrite (@getitem_from_end _ gs (decimal d) g Hk Hn). reflexivity.
Qed.

Lemma parse_block_stale bl c x rest loc :
  is_layer_char c = true -> is_layer_char x = false ->
  parse_block lim bl (Some (layer_of bl c)) (String x rest)
  = parse_block lim bl loc (String c rest).
Proof.
  intros Hc Hx. unfold parse_block.
  rewrite (match_name_layer bl c loc Hc).
  unfold is_layer_char in Hx.
  apply orb_false_iff in Hx as [Hx Hu]. apply orb_false_iff in Hx as [Hd Hm].
  unfold match_name at 1 2 3 4 5 6. rewrite Hd, Hm, Hu. reflexivity.
Qed.

Lemma parse_block_locals bl c rest loc loc' a :
  is_layer_char c = true ->
  parse_block lim bl loc (String c rest) = Ok (loc', a) ->
  loc' = Some (layer_of bl c).
Proof.
  intros Hc. unfold parse_block. rewrite (match_name_layer bl c loc Hc).
  destruct (layer_of bl c) as [layer cur].
  cbn [load_cur_blocks load_layer bind].
  destruct (2 <=? _)%nat;
    repeat match goal with
           | |- bind ?r _ = Ok _ -> _ => destruct r; cbn [bind]; [|discriminate]
           end; congruence.
Qed.

(** A token that starts with a character other than [d], [m], [u], after
    a token with layer character [c]: the loop treats it as if it started
    with [c]. *)
Theorem invalid_prefix_takes_previous_layer :
  forall bl loc c x rest1 rest2 more output,
    is_layer_char c = true -> is_layer_char x = false ->
    parse_loop lim bl loc (String c rest1 :: String x rest2 :: more) output
    = parse_loop lim bl loc (String c rest1 :: String c rest2 :: more) output.
Proof.
  intros bl loc c x rest1 rest2 more output Hc Hx.
  cbn [parse_loop].
  destruct (parse_block lim bl loc (String c rest1)) as [[loc' a]|e] eqn:E;
    [|reflexivity].
  cbn [bind]. rewrite (@parse_block_locals bl c rest1 loc loc' a Hc E).
  now rewrite (@parse_block_stale bl c x rest2 (Some (layer_of bl c)) Hc Hx).
Qed.

Lemma match_name_ok bl name loc :
  locals_ok bl loc -> locals_ok bl (match_name bl name loc).
Proof.
  intros H. unfold match_name, layers.
  destruct (Ascii.eqb name "d"); [simpl; auto|].
  destruct (Ascii.eqb name "m"); [simpl; auto|].
  destruct (Ascii.eqb name "u"); [simpl; auto|assumption].
Qed.

Lemma parse_block_valid bl loc block loc' a :
  locals_ok bl loc ->
  parse_block lim bl loc block = Ok (loc', a) ->
  locals_ok bl loc' /\ valid_address bl a.
Proof.
  intros Hok H. unfold parse_block in H.
  destruct block as [|name rest]; [discriminate|].
  pose proof (@match_name_ok bl name loc Hok) as Hok'.
  destruct (match_name bl name loc) as [[layer cur]|];
    [|destruct (2 <=? _)%nat; discriminate].
  cbn [load_cur_blocks load_layer bind] in H.
  destruct (getitem (split "." rest) 0) as [i0|e] eqn:E0;
    [|destruct (2 <=? _)%nat; discriminate].
  cbn [bind] in H.
  destruct (Py.int lim i0) as [p|e] eqn:Ep;
    [|destruct (2 <=? _)%nat; discriminate].
  cbn [bind] in H.
  destruct (getitem cur p) as [[value count]|e] eqn:Eg;
    [|destruct (2 <=? _)%nat; discriminate].
  cbn [bind fst snd] in H. apply getitem_In in Eg.
  destruct (2 <=? _)%nat.
  - destruct (getitem (split "." rest) 1) as [i1|e] eqn:E1; [|discriminate].
    cbn [bind] in H.
    destruct (Py.int lim i1) as [index|e] eqn:Ei; [|discriminate].
    cbn [bind] in H.
    destruct (0 <=? index) eqn:Elo; [|discriminate].
    cbn [bind assert_] in H.
    destruct (index <? count) eqn:Ehi; [|discriminate].
    cbn [bind] in H. injection H as <- <-.
    split; [assumption|]. exists cur, count.
    apply Z.leb_le in Elo. apply Z.ltb_lt in Ehi. auto.
  - injection H as <- <-.
    split; [assumption|]. exists cur, count. auto.
Qed.

Lemma parse_loop_valid bl ts : forall loc output loc' output',
  locals_ok bl loc -> Forall (valid_address bl) output ->
  parse_loop lim bl loc ts output = Ok (loc', output') ->
  Forall (valid_address bl) output'.
Proof.
  induction ts as [|t ts IH]; intros loc output loc' output' Hok Hall H.
  - simpl in H. now injection H as _ <-.
  - cbn [parse_loop] in H.
    destruct (parse_block lim bl loc t) as [[l a]|e] eqn:E; [|discriminate].
    cbn [bind] in H.
    destruct (@parse_block_valid bl loc t l a Hok E) as [Hl Ha].
    eapply IH; [exact Hl| |exact H].
    apply Forall_app. split; [assumption|]. now constructor.
Qed.

(** Every address a call returns names one of the layers ["input"],
    ["middle"], ["output"] and the value of a run-length group of that layer
    in the model; its sub-index, if any, is at least 0 and below the count
    of that group. *)
Theorem returned_addresses_valid :
  forall s output,
    parse_unet_blocks lim model s = Ok output ->
    Forall (valid_address (grouped raw)) output.
Proof.
  intros s output H. rewrite call_unfold in H.
  destruct (parse_loop lim (grouped raw) None (unet_blocks_of s) [])
    as [[loc out]|e] eqn:E; [|discriminate].
  cbn [bind] in H. injection H as <-.
  eapply parse_loop_valid; [| |exact E]; [exact I|constructor].
Qed.



End Calls.

Lemma collect_blocks_app lim pre : forall acc post,
  collect_blocks lim acc (pre ++ post)
  = (acc' <- collect_blocks lim acc pre ;; collect_blocks lim acc' post).
Proof.
  induction pre as [|nm pre IH]; intros acc post; [reflexivity|].
  cbn [app collect_blocks].
  destruct (collect_module lim acc nm); [|reflexivity].
  cbn [bind]. apply IH.
Qed.

Lemma collect_module_skip lim acc nm :
  is_self_attention nm = false -> collect_module lim acc nm = Ok acc.
Proof.
  destruct nm as [name class]. unfold is_self_attention, collect_module.
  cbn [fst snd]. now intros ->.
Qed.

Lemma collect_blocks_filter lim model : forall acc,
  collect_blocks lim acc model
  = collect_blocks lim acc (filter is_self_attention model).
Proof.
  induction model as [|nm model IH]; intros acc; [reflexivity|].
  cbn [filter]. destruct (is_self_attention nm) eqn:E.
  - cbn [collect_blocks].
    destruct (collect_module lim acc nm); [|reflexivity].
    cbn [bind]. apply IH.
  - cbn [collect_blocks]. rewrite (collect_module_skip lim acc nm E).
    cbn [bind]. apply IH.
Qed.

(** Only the self-attention submodules of the model count: the call gives
    the same result, or the same error, on the model with every other
    submodule left out. *)
Theorem other_modules_ignored :
  forall lim model s,
    parse_unet_blocks lim model s
    = parse_unet_blocks lim (filter is_self_attention model) s.
Proof.
  intros lim model s. unfold parse_unet_blocks.
  now rewrite collect_blocks_filter.
Qed.

(** A self-attention submodule whose name has no dot, after submodules that
    are collected without error: [parts[1]] raises IndexError, whatever the
    selector. *)
Theorem dotless_module_name_index_error :
  forall lim pre name post acc s,
    collect_blocks lim (mkRaw [] [] []) pre = Ok acc ->
    endswith name "attn1" = true ->
    all_chars (not_char ".") name = true ->
    parse_unet_blocks lim (pre ++ (name, "CrossAttention"%string) :: post) s
    = Raise IndexError.
Proof.
  intros lim pre name post acc s Hpre Hend Hdot.
  unfold parse_unet_blocks. rewrite collect_blocks_app, Hpre.
  cbn [bind collect_blocks]. unfold collect_module.
  rewrite Hend. change (String.eqb "CrossAttention" "CrossAttention") with true.
  cbn [andb]. rewrite (split_no_sep _ _ Hdot), getitem_0. cbn [bind].
  rewrite (@getitem_out_of_range _ [name] 1) by (simpl; lia).
  reflexivity.
Qed.



(** Two commas in a row. *)
Lemma empty_token_index_error_witness :
  parse_unet_blocks 4300 model_middle "m0,,m1" = Raise IndexError.
Proof.
  refine (@empty_token_index_error 4300%nat model_middle
            (mkRaw [] [0; 1; 1; 1; 1] []) eq_refl "m0,,m1"%string
            ["m0"%string] ["m1"%string]
            (Some ("middle"%string, [(0, 1); (1, 4)]))
            [("middle"%string, 0, None)] _ _); reflexivity.
Defined.


(** Two tokens, two addresses. *)
Lemma one_address_per_token_witness :
  List.length [("middle"%string, 0, @None Z); ("middle"%string, 1, Some 3)]
  = List.length (split "," "m0,m1.3").
Proof.
  refine (@one_address_per_token 4300%nat model_middle
            (mkRaw [] [0; 1; 1; 1; 1] []) eq_refl "m0,m1.3"%string
            [("middle"%string, 0, None); ("middle"%string, 1, Some 3)] _).
  reflexivity.
Defined.

(** ["m-1"] addresses the last middle group, of value 1. *)
Lemma negative_position_from_end_witness :
  parse_unet_blocks 4300 model_middle "m-1" = Ok [("middle", 1, None)].
Proof.
  refine (@negative_position_from_end 4300%nat model_middle
            (mkRaw [] [0; 1; 1; 1; 1] []) eq_refl "m"%char "1"%string (1, 4)
            _ _ _ _ _); try reflexivity.
  vm_compute. split; discriminate.
Defined.

(** ["m0"] followed by ["x1.3"] is read as ["m0"] followed by ["m1.3"]. *)
Lemma invalid_prefix_takes_previous_layer_witness :
  parse_loop 4300 (mkBlocks [] [(0, 1); (1, 4)] []) None ["m0"; "x1.3"] []
  = parse_loop 4300 (mkBlocks [] [(0, 1); (1, 4)] []) None ["m0"; "m1.3"] [].
Proof.
  refine (@invalid_prefix_takes_previous_layer 4300%nat
            (mkBlocks [] [(0, 1); (1, 4)] []) None "m"%char "x"%char
            "0"%string "1.3"%string [] [] _ _); reflexivity.
Defined.

(** The addresses of ["m0,m1.3"]. *)
Lemma returned_addresses_valid_witness :
  Forall (valid_address (grouped (mkRaw [] [0; 1; 1; 1; 1] [])))
         [("middle"%string, 0, None); ("middle"%string, 1, Some 3)].
Proof.
  refine (@returned_addresses_valid 4300%nat model_middle
            (mkRaw [] [0; 1; 1; 1; 1] []) eq_refl "m0,m1.3"%string _ _).
  reflexivity.
Defined.

(** A module named ["attn1"] after the modules of [model_middle]. *)
Lemma dotless_module_name_index_error_witness :
  parse_unet_blocks 4300
    (model_middle ++ [("attn1"%string, "CrossAttention"%string)]) "m0"
  = Raise IndexError.
Proof.
  refine (@dotless_module_name_index_error 4300%nat model_middle
            "attn1"%string [] (mkRaw [] [0; 1; 1; 1; 1] []) "m0"%string
            _ _ _); reflexivity.
Defined.


End ParserFacts.

(** ** Run-length groups of a sorted list *)

Module SortedGroups.

Import RunLength RunLengthFacts.

Local Open Scope list_scope.

Lemma strongly_sorted_drop_run (v : Z) (l : list Z) : forall k,
  StronglySorted Z.le (repeat v k ++ l) ->
  StronglySorted Z.le l /\ ((0 < k)%nat -> Forall (fun x => v <= x) l).
Proof.
  induction k as [|k IH]; simpl; intros H.
  - split; [assumption|lia].
  - apply StronglySorted_inv in H as [Hs Hf].
    destruct (IH Hs) as [Hl _]. split; [assumption|].
    intros _. apply Forall_app in Hf. apply Hf.
Qed.

Lemma value_in_expand gs g :
  positive_counts gs -> In g gs -> In (fst g) (expand gs).
Proof.
  induction gs as [|g0 gs IH]; intros Hp Hin; [contradiction|].
  inversion Hp as [|? ? Hc Hp']; subst.
  change (expand (g0 :: gs))
    with (repeat (fst g0) (Z.to_nat (snd g0)) ++ expand gs).
  apply in_or_app. destruct Hin as [-> | Hin].
  - left. destruct (Z.to_nat (snd g)) eqn:E; [lia|]. simpl. auto.
  - right. auto.
Qed.

Lemma expand_values gs x : In x (expand gs) -> In x (map fst gs).
Proof.
  induction gs as [|g0 gs IH]; [contradiction|].
  change (expand (g0 :: gs))
    with (repeat (fst g0) (Z.to_nat (snd g0)) ++ expand gs).
  intros H. apply in_app_or in H as [H | H].
  - apply repeat_spec in H. subst. now left.
  - right. auto.
Qed.

Lemma values_increasing gs :
  positive_counts gs -> maximal_runs gs ->
  StronglySorted Z.le (expand gs) ->
  StronglySorted Z.lt (map fst gs).
Proof.
  induction gs as [|g gs IH]; intros Hp Hm Hs; [constructor|].
  inversion Hp as [|? ? Hc Hp']; subst.
  change (expand (g :: gs))
    with (repeat (fst g) (Z.to_nat (snd g)) ++ expand gs) in Hs.
  apply strongly_sorted_drop_run in Hs as [Hs Hle].
  specialize (Hle ltac:(lia)).
  assert (Hm' : maximal_runs gs) by (destruct gs; [exact I|apply Hm]).
  specialize (IH Hp' Hm' Hs).
  cbn [map]. constructor; [assumption|].
  destruct gs as [|g2 gs']; [constructor|].
  destruct Hm as [Hne _]. cbn [map] in *.
  assert (H2 : fst g < fst g2).
  { rewrite Forall_forall in Hle.
    specialize (Hle (fst g2) (@value_in_expand (g2 :: gs') g2 Hp' (or_introl eq_refl))).
    lia. }
  constructor; [assumption|].
  apply StronglySorted_inv in IH as [_ Hf].
  eapply Forall_impl; [|exact Hf]. simpl. intros. lia.
Qed.

Lemma count_of_group gs :
  positive_counts gs -> StronglySorted Z.lt (map fst gs) ->
  forall v c, In (v, c) gs ->
    Z.of_nat (count_occ Z.eq_dec (expand gs) v) = c.
Proof.
  induction gs as [|g gs IH]; intros Hp Hs v c Hin; [contradiction|].
  inversion Hp as [|? ? Hc Hp']; subst.
  cbn [map] in Hs. apply StronglySorted_inv in Hs as [Hs Hf].
  change (expand (g :: gs))
    with (repeat (fst g) (Z.to_nat (snd g)) ++ expand gs).
  rewrite count_occ_app. rewrite Forall_forall in Hf.
  destruct Hin as [-> | Hin].
  - cbn [fst snd] in *. rewrite count_occ_repeat_eq by reflexivity.
    rewrite (proj1 (count_occ_not_In Z.eq_dec (expand gs) v)); [lia|].
    intros Hx. apply expand_values in Hx. specialize (Hf v Hx). lia.
  - assert (fst g < v).
    { apply Hf. apply in_map_iff. exists (v, c). auto. }
    rewrite count_occ_repeat_neq by lia.
    pose proof (IH Hp' Hs v c Hin). lia.
Qed.

(** When the raw block ids come in non-decreasing order, as in a network
    where each id appears contiguously: the groups hold strictly increasing
    values, so that each id has one group only, and the count of a group is
    the number of occurrences of its value. *)
Theorem sorted_ids_one_group_each :
  forall blocks : list Z,
    Sorted Z.le blocks ->
    StronglySorted Z.lt (map fst (group_blocks blocks)) /\
    forall v c, In (v, c) (group_blocks blocks) ->
                c = Z.of_nat (count_occ Z.eq_dec blocks v).
Proof.
  intros blocks Hs.
  destruct (group_blocks_spec blocks) as (He & Hp & Hm).
  cbn zeta in He, Hp, Hm.
  assert (Hss : StronglySorted Z.le (expand (group_blocks blocks))).
  { rewrite He. apply Sorted_StronglySorted; [|assumption].
    intros x y z. apply Z.le_trans. }
  pose proof (values_increasing Hp Hm Hss) as Hv.
  split; [assumption|].
  intros v c Hin. rewrite <- He at 1. symmetry.
  now apply count_of_group.
Qed.

(** The ids [1,1,2,4,4,4]. *)
Lemma sorted_ids_one_group_each_witness :
  StronglySorted Z.lt (map fst (group_blocks [1; 1; 2; 4; 4; 4])) /\
  forall v c, In (v, c) (group_blocks [1; 1; 2; 4; 4; 4]) ->
              c = Z.of_nat (count_occ Z.eq_dec [1; 1; 2; 4; 4; 4] v).
Proof.
  apply (@sorted_ids_one_group_each [1; 1; 2; 4; 4; 4]).
  repeat constructor; lia.
Defined.

Lemma expand_length gs :
  positive_counts gs ->
  Z.of_nat (List.length (expand gs)) = fold_right Z.add 0 (map snd gs).
Proof.
  induction 1 as [|g gs Hc _ IH]; [reflexivity|].
  change (expand (g :: gs))
    with (repeat (fst g) (Z.to_nat (snd g)) ++ expand gs).
  rewrite length_app, repeat_length. cbn [map fold_right]. lia.
Qed.

(** The counts of the groups add up to the number of block ids, and there
    are at most as many groups as ids. *)
Theorem group_counts_total :
  forall blocks : list Z,
    fold_right Z.add 0 (map snd (group_blocks blocks))
    = Z.of_nat (List.length blocks) /\
    (List.length (group_blocks blocks) <= List.length blocks)%nat.
Proof.
  intros blocks. destruct (group_blocks_spec blocks) as (He & Hp & _).
  cbn zeta in He, Hp. pose proof (expand_length Hp) as Hl.
  rewrite He in Hl. split; [now symmetry|].
  assert (Hn : Z.of_nat (List.length (group_blocks blocks))
               <= fold_right Z.add 0 (map snd (group_blocks blocks))).
  { clear He Hl. induction Hp as [|g gs Hc _ IH]; [reflexivity|].
    cbn [List.length map fold_right]. lia. }
  lia.
Qed.

End SortedGroups.

(** ** Whitespace in selectors *)

Module Whitespace.

Import Py Text StrFacts Selectors.

Local Open Scope list_scope.

Lemma split_prefix sep a x :
  all_chars (not_char sep) a = true ->
  split sep (a ++ x)
  = match split sep x with
    | h :: t => (a ++ h)%string :: t
    | [] => []
    end.
Proof.
  induction a as [|c r IH]; simpl.
  - intros _. now destruct (split sep x).
  - unfold not_char at 1. intros H. apply andb_true_iff in H as [Hc Hr].
    apply negb_true_iff in Hc. rewrite Hc, (IH Hr).
    pose proof (split_not_nil sep x). now destruct (split sep x).
Qed.

Lemma split_suffix sep b : all_chars (not_char sep) b = true ->
  forall x, split sep (x ++ b) = app_last (split sep x) b.
Proof.
  intros Hb. induction x as [|c r IH]; simpl.
  - now apply split_no_sep.
  - pose proof (split_not_nil sep r) as Hne. rewrite IH.
    destruct (Ascii.eqb c sep).
    + now destruct (split sep r).
    + destruct (split sep r) as [|h [|h2 t]]; [congruence| |]; reflexivity.
Qed.

(** Splitting at a separator splits the list of pieces. *)
Lemma split_at_sep sep y : forall x,
  split sep (x ++ String sep y) = split sep x ++ split sep y.
Proof.
  induction x as [|c r IH]; simpl.
  - now rewrite Ascii.eqb_refl.
  - rewrite IH. pose proof (split_not_nil sep r) as Hne.
    destruct (Ascii.eqb c sep); [reflexivity|].
    now destruct (split sep r).
Qed.

Lemma strip_app_space_l a t :
  all_chars isspace a = true -> strip (a ++ t) = strip t.
Proof. intros H. unfold strip. now rewrite lstrip_app_space. Qed.

Lemma strip_app_space_r b : all_chars isspace b = true ->
  forall t, strip (t ++ b) = strip t.
Proof.
  intros Hb. unfold strip. induction t as [|c r IH].
  - simpl. now rewrite lstrip_space.
  - cbn [append lstrip]. destruct (isspace c); [assumption|].
    change (String c (r ++ b)) with (String c r ++ b)%string.
    now apply rstrip_app_space.
Qed.

Lemma map_strip_app_last b : all_chars isspace b = true ->
  forall l, map strip (app_last l b) = map strip l.
Proof.
  intros Hb. induction l as [|h [|h2 t] IH]; [reflexivity| |].
  - cbn [app_last map]. now rewrite strip_app_space_r.
  - change (app_last (h :: h2 :: t) b) with (h :: app_last (h2 :: t) b).
    cbn [map] in *. now rewrite IH.
Qed.

Lemma unet_blocks_of_padded lead s trail :
  all_chars isspace lead = true -> all_chars isspace trail = true ->
  unet_blocks_of (lead ++ s ++ trail) = unet_blocks_of s.
Proof.
  intros Hl Ht. unfold unet_blocks_of.
  rewrite split_prefix by now apply space_not_comma.
  rewrite split_suffix by now apply space_not_comma.
  rewrite <- (@map_strip_app_last trail Ht (split "," s)).
  destruct (app_last (split "," s) trail) as [|h t]; [reflexivity|].
  cbn [map]. now rewrite strip_app_space_l.
Qed.

Lemma unet_blocks_of_comma x y :
  unet_blocks_of (x ++ String "," y) = unet_blocks_of x ++ unet_blocks_of y.
Proof. unfold unet_blocks_of. now rewrite split_at_sep, map_app. Qed.

(** Whitespace at both ends of the selector and on both sides of a comma
    changes nothing, for every selector, well-formed or not: the call gives
    the same result or the same error. *)
Theorem whitespace_around_tokens_ignored :
  forall lim model lead trail,
    all_chars isspace lead = true -> all_chars isspace trail = true ->
    (forall s,
       parse_unet_blocks lim model (lead ++ s ++ trail)
       = parse_unet_blocks lim model s) /\
    (forall x y,
       parse_unet_blocks lim model ((x ++ trail) ++ String "," (lead ++ y))
       = parse_unet_blocks lim model (x ++ String "," y)).
Proof.
  intros lim model lead trail Hl Ht. split.
  - intros s. unfold parse_unet_blocks, parse_selectors.
    now rewrite unet_blocks_of_padded.
  - intros x y. unfold parse_unet_blocks, parse_selectors.
    rewrite !unet_blocks_of_comma.
    rewrite <- (@unet_blocks_of_padded EmptyString x trail eq_refl Ht).
    rewrite <- (@unet_blocks_of_padded lead y EmptyString Hl eq_refl).
    now rewrite append_nil_r.
Qed.

(** Two spaces before, a tab after. *)
Lemma whitespace_around_tokens_ignored_witness :
  parse_unet_blocks 4300 model_middle "  m0,m1.3	"
  = parse_unet_blocks 4300 model_middle "m0,m1.3"
  /\ parse_unet_blocks 4300 model_middle "m0	,  m1.3"
     = parse_unet_blocks 4300 model_middle "m0,m1.3".
Proof.
  split.
  - exact (proj1 (@whitespace_around_tokens_ignored 4300%nat model_middle
                    "  "%string "	"%string eq_refl eq_refl)
             "m0,m1.3"%string).
  - exact (proj2 (@whitespace_around_tokens_ignored 4300%nat model_middle
                    "  "%string "	"%string eq_refl eq_refl)
             "m0"%string "m1.3"%string).
Defined.

End Whitespace.

(** ** More on the attention wrappers *)

Module WrapperFacts.

Import TensorFacts.

Local Open Scope list_scope.

Section Wrappers.

Variable elem : Type.
Variable mean : list elem -> elem.
Variable libm_pow : Float.float -> Float.float -> Float.float.
Variable GaussianBlur2d :
  Z * Z -> Float.float * Float.float -> string -> Tensor elem ->
  result (Tensor elem).
Variable attention :
  Tensor elem -> Tensor elem -> Tensor elem -> Z -> result (Tensor elem).
Variable gaussian_blur_2d :
  Tensor elem -> Z -> Float.float -> result (Tensor elem).

Ltac unfold_wrappers :=
  unfold seg_attention_wrapper, seg_perturbed_attention, perturbed_query,
    seg_attention_wrapper_old, seg_perturbed_attention_old, spatial_query.

(** A missing key of [extra_options] raises KeyError in both wrappers:
    [n_heads] before anything else is looked at, [original_shape] once [q] is
    known to have three axes.  The attention function is not called. *)
Theorem missing_option_key_error :
  forall blur_sigma border_mode (q k v : Tensor elem) extra_options mask,
    (n_heads extra_options = None ->
     seg_attention_wrapper mean libm_pow GaussianBlur2d attention
       blur_sigma border_mode q k v extra_options mask
     = Raise KeyError /\
     seg_attention_wrapper_old mean libm_pow attention gaussian_blur_2d
       blur_sigma q k v extra_options mask = Raise KeyError) /\
    (forall heads bs area inner_dim,
       n_heads extra_options = Some heads ->
       shape q = [bs; area; inner_dim] ->
       original_shape extra_options = None ->
       seg_attention_wrapper mean libm_pow GaussianBlur2d attention
       blur_sigma border_mode q k v extra_options mask
       = Raise KeyError /\
       seg_attention_wrapper_old mean libm_pow attention gaussian_blur_2d
       blur_sigma q k v extra_options mask = Raise KeyError).
Proof.
  intros blur_sigma border_mode q k v opts mask. split.
  - intros Hn. unfold_wrappers. rewrite Hn. split; reflexivity.
  - intros heads bs area dim Hn Hsh Ho. unfold_wrappers.
    rewrite Hn, Hsh, Ho. split; reflexivity.
Qed.

(** With both keys present, both wrappers raise ValueError when [q] has
    not exactly three axes or [original_shape] has fewer than four entries,
    and ZeroDivisionError when the original height is 0. *)
Theorem malformed_argument_errors :
  forall blur_sigma border_mode (q k v : Tensor elem) extra_options mask
         heads osh,
    n_heads extra_options = Some heads ->
    original_shape extra_options = Some osh ->
    (List.length (shape q) <> 3%nat ->
     seg_attention_wrapper mean libm_pow GaussianBlur2d attention
       blur_sigma border_mode q k v extra_options mask
     = Raise ValueError /\
     seg_attention_wrapper_old mean libm_pow attention gaussian_blur_2d
       blur_sigma q k v extra_options mask = Raise ValueError) /\
    (List.length (shape q) = 3%nat -> (List.length osh < 4)%nat ->
     seg_attention_wrapper mean libm_pow GaussianBlur2d attention
       blur_sigma border_mode q k v extra_options mask
     = Raise ValueError /\
     seg_attention_wrapper_old mean libm_pow attention gaussian_blur_2d
       blur_sigma q k v extra_options mask = Raise ValueError) /\
    (List.length (shape q) = 3%nat -> (4 <= List.length osh)%nat ->
     nth 2 osh 1 = 0 ->
     seg_attention_wrapper mean libm_pow GaussianBlur2d attention
       blur_sigma border_mode q k v extra_options mask
     = Raise ZeroDivisionError /\
     seg_attention_wrapper_old mean libm_pow attention gaussian_blur_2d
       blur_sigma q k v extra_options mask
     = Raise ZeroDivisionError).
Proof.
  intros blur_sigma border_mode q k v opts mask heads osh Hn Ho.
  unfold_wrappers. rewrite Hn, Ho. cbn [lookup bind].
  repeat split.
  1,2: destruct (shape q) as [|a [|b [|c [|d l]]]]; simpl in *;
       try reflexivity; congruence.
  1,2: destruct (shape q) as [|a [|b [|c [|d l]]]]; simpl in *; try lia;
       destruct osh as [|x0 [|x1 [|x2 [|x3 o]]]]; simpl in *; try lia;
       reflexivity.
  1,2: destruct (shape q) as [|a [|b [|c [|d l]]]]; simpl in *; try lia;
       destruct osh as [|x0 [|x1 [|x2 [|x3 o]]]]; simpl in *; try lia;
       subst x2; reflexivity.
Qed.

Lemma spatial_query_heads (q qs : Tensor elem) opts heads bs dim :
  spatial_query libm_pow q opts = Ok (heads, bs, dim, qs) ->
  n_heads opts = Some heads.
Proof.
  unfold spatial_query. destruct (n_heads opts) as [h|]; [|discriminate].
  cbn [lookup bind].
  destruct (unpack3 (shape q)) as [[[b a] c]|]; [|discriminate]. cbn [bind].
  destruct (lookup (original_shape opts)); [|discriminate]. cbn [bind].
  destruct (unpack_hw _) as [[ho wo]|]; [|discriminate]. cbn [bind].
  destruct (Float.int_truediv wo ho); [|discriminate]. cbn [bind].
  destruct (to_spatial _ _ _ _ _ _); [|discriminate]. cbn [bind].
  congruence.
Qed.

(** The mean branch on a spatial query, reshaped back. *)
Lemma mean_branch blur_sigma border_mode bs area dim h w (xs : list elem) :
  Float.ge blur_sigma Float.zero = false ->
  (h * w)%nat = area -> (0 < bs * dim)%nat ->
  (qb <- perturb mean GaussianBlur2d blur_sigma border_mode
           (mkTensor [bs; dim; h; w] (permuted bs area dim xs)) ;;
   from_spatial qb bs dim)
  = Ok (mkTensor [bs; area; dim] (collapsed mean bs area dim xs)).
Proof.
  intros Hge Hm Hp. unfold perturb. rewrite Hge.
  unfold mean_last2, assign_all. cbn [shape data bind].
  rewrite !Nat.eqb_refl. cbn [andb bind].
  rewrite from_spatial_grid by assumption.
  unfold collapsed. rewrite <- Hm.
  replace (bs * dim * h * w)%nat with (bs * dim * (h * w))%nat by lia.
  reflexivity.
Qed.

(** With [blur_sigma >= 0] false (negative, or NaN), the two wrappers
    agree: [seg_attention_wrapper_old] returns what [seg_attention_wrapper]
    returns, or raises the same error, whatever the border mode and the two
    blur functions. *)
Theorem wrappers_agree_on_mean_branch :
  forall blur_sigma border_mode (q k v : Tensor elem) extra_options mask,
    Float.ge blur_sigma Float.zero = false ->
    seg_attention_wrapper_old mean libm_pow attention gaussian_blur_2d
      blur_sigma q k v extra_options mask
    = seg_attention_wrapper mean libm_pow GaussianBlur2d attention
        blur_sigma border_mode q k v extra_options mask.
Proof.
  intros blur_sigma border_mode q k v opts mask Hge.
  unfold seg_attention_wrapper, seg_perturbed_attention, perturbed_query,
    seg_attention_wrapper_old, seg_perturbed_attention_old, perturb.
  rewrite Hge.
  destruct (spatial_query libm_pow q opts) as [[[[heads bs] dim] qs]|e];
    [|reflexivity].
  cbn [bind].
  destruct (mean_last2 mean qs) as [m|e]; [|reflexivity]. cbn [bind].
  destruct (assign_all qs m) as [qb|e]; [|reflexivity]. cbn [bind].
  destruct (from_spatial qb bs dim); reflexivity.
Qed.

(** With [blur_sigma >= 0] false, the query handed to the attention function
    does not depend on the aspect ratio: two [extra_options] for which the
    spatial reshape succeeds give the same query. *)
Theorem mean_collapse_ignores_aspect_ratio :
  forall blur_sigma border_mode (q : Tensor elem) opts1 opts2
         heads1 bs1 dim1 qs1 heads2 bs2 dim2 qs2,
    Float.ge blur_sigma Float.zero = false ->
    spatial_query libm_pow q opts1 = Ok (heads1, bs1, dim1, qs1) ->
    spatial_query libm_pow q opts2 = Ok (heads2, bs2, dim2, qs2) ->
    exists q',
      perturbed_query mean libm_pow GaussianBlur2d blur_sigma border_mode
        q opts1 = Ok (heads1, q') /\
      perturbed_query mean libm_pow GaussianBlur2d blur_sigma border_mode
        q opts2 = Ok (heads2, q').
Proof.
  intros blur_sigma border_mode q opts1 opts2 heads1 bs1 dim1 qs1
         heads2 bs2 dim2 qs2 Hge H1 H2.
  destruct (@spatial_query_inv _ libm_pow q qs1 opts1 heads1 bs1 dim1 H1)
    as (a1 & h1 & w1 & Hs1 & Hq1 & Hm1 & Hp1).
  destruct (@spatial_query_inv _ libm_pow q qs2 opts2 heads2 bs2 dim2 H2)
    as (a2 & h2 & w2 & Hs2 & Hq2 & Hm2 & Hp2).
  rewrite Hs1 in Hs2. injection Hs2 as <- <- <-.
  exists (mkTensor [bs1; a1; dim1] (collapsed mean bs1 a1 dim1 (data q))).
  unfold perturbed_query. rewrite H1, H2. cbn [bind].
  pose proof (@mean_branch blur_sigma border_mode bs1 a1 dim1 h1 w1 (data q)
                Hge Hm1 Hp1) as E1.
  pose proof (@mean_branch blur_sigma border_mode bs1 a1 dim1 h2 w2 (data q)
                Hge Hm2 Hp2) as E2.
  rewrite <- Hq1 in E1. rewrite <- Hq2 in E2.
  destruct (perturb mean GaussianBlur2d blur_sigma border_mode qs1) as [b1|];
    [|discriminate].
  destruct (perturb mean GaussianBlur2d blur_sigma border_mode qs2) as [b2|];
    [|discriminate].
  cbn [bind] in *. rewrite E1, E2. auto.
Qed.

Lemma perturb_shape blur_sigma border_mode bs dim h w (qs qb : Tensor elem) :
  (forall ks sg b t t',
     GaussianBlur2d ks sg b t = Ok t' -> shape t' = shape t) ->
  shape qs = [bs; dim; h; w] ->
  perturb mean GaussianBlur2d blur_sigma border_mode qs = Ok qb ->
  shape qb = [bs; dim; h; w].
Proof.
  intros Hblur Hsh. unfold perturb.
  destruct (Float.ge blur_sigma Float.zero).
  - destruct (capped_kernel_size blur_sigma qs) as [ks|]; [|discriminate].
    cbn [bind]. destruct (3 <=? ks).
    + intros H. apply Hblur in H. congruence.
    + intros H. injection H as <-. assumption.
  - unfold mean_last2, assign_all. rewrite Hsh. cbn [shape bind].
    rewrite !Nat.eqb_refl. cbn [andb]. intros H. injection H as <-.
    reflexivity.
Qed.

(** Whenever the wrapper reaches the attention function, with a blur that
    keeps the shape of its input, the query it hands over has the shape of
    [q], and [heads] is the value of the key [n_heads]. *)
Theorem delegated_query_keeps_shape :
  forall blur_sigma border_mode (q : Tensor elem) extra_options heads q',
    (forall ks sg b t t',
       GaussianBlur2d ks sg b t = Ok t' -> shape t' = shape t) ->
    perturbed_query mean libm_pow GaussianBlur2d blur_sigma border_mode
      q extra_options = Ok (heads, q') ->
    shape q' = shape q /\ n_heads extra_options = Some heads.
Proof.
  intros blur_sigma border_mode q opts heads q' Hblur H.
  unfold perturbed_query in H.
  destruct (spatial_query libm_pow q opts) as [[[[hd bs] dim] qs]|e] eqn:Hsq;
    [|discriminate].
  cbn [bind] in H.
  destruct (perturb mean GaussianBlur2d blur_sigma border_mode qs)
    as [qb|e] eqn:Hp; [|discriminate].
  cbn [bind] in H.
  destruct (from_spatial qb bs dim) as [qf|e] eqn:Hf; [|discriminate].
  cbn [bind] in H. injection H as <- <-.
  pose proof (spatial_query_heads _ _ Hsq) as Hh.
  destruct (@spatial_query_inv _ libm_pow q qs opts hd bs dim Hsq)
    as (area & h & w & Hsh & Hqs & Hm & Hpos).
  assert (Hqsh : shape qs = [bs; dim; h; w]) by (rewrite Hqs; reflexivity).
  pose proof (@perturb_shape blur_sigma border_mode bs dim h w qs qb
                Hblur Hqsh Hp) as Hb.
  rewrite <- (tensor_eta qb Hb) in Hf.
  rewrite from_spatial_grid in Hf by assumption.
  injection Hf as <-. cbn [shape]. rewrite Hsh, Hm. auto.
Qed.

(** For [blur_sigma >= 0] on a spatial query of height [h] and width [w],
    with [c = math.ceil(6 * blur_sigma)]: the blur is applied exactly when
    [c >= 2] and both [h] and [w] are at least 2, with the kernel size
    [min(c or c + 1, 2 * min(h, w) - 1)] on both axes and [blur_sigma] as
    both sigmas; otherwise the query is left as it is. *)
Theorem blur_applied_iff :
  forall blur_sigma border_mode (q : Tensor elem) bs dim h w c,
    Float.ge blur_sigma Float.zero = true ->
    shape q = [bs; dim; h; w] ->
    Float.ceil (Float.mul Float.six blur_sigma) = Ok c ->
    perturb mean GaussianBlur2d blur_sigma border_mode q =
    if (2 <=? c) && (2 <=? Z.of_nat h) && (2 <=? Z.of_nat w) then
      let kernel_size :=
        Z.min (if c mod 2 =? 0 then c + 1 else c)
              (2 * Z.min (Z.of_nat h) (Z.of_nat w) - 1) in
      GaussianBlur2d (kernel_size, kernel_size) (blur_sigma, blur_sigma)
                     border_mode q
    else Ok q.
Proof.
  intros blur_sigma border_mode q bs dim h w c Hge Hsh Hc.
  unfold perturb, capped_kernel_size, odd_kernel_size.
  rewrite Hge, Hc, Hsh.
  change (last2 [bs; dim; h; w]) with (Ok (Z.of_nat h, Z.of_nat w)).
  cbn [bind]. cbn zeta.
  set (k := Z.min (if c mod 2 =? 0 then c + 1 else c)
                  (2 * Z.min (Z.of_nat h) (Z.of_nat w) - 1)).
  assert (E : (3 <=? k)
              = ((2 <=? c) && (2 <=? Z.of_nat h) && (2 <=? Z.of_nat w))).
  { pose proof (Z.mod_pos_bound c 2 ltac:(lia)) as Hb.
    pose proof (Z.div_mod c 2 ltac:(lia)) as Hd.
    unfold k.
    destruct (c mod 2 =? 0) eqn:Em;
      [apply Z.eqb_eq in Em|apply Z.eqb_neq in Em];
      destruct (3 <=? _) eqn:E3;
      [apply Z.leb_le in E3|apply Z.leb_gt in E3
      |apply Z.leb_le in E3|apply Z.leb_gt in E3];
      destruct (2 <=? c) eqn:E1;
      [apply Z.leb_le in E1|apply Z.leb_gt in E1
      |apply Z.leb_le in E1|apply Z.leb_gt in E1
      |apply Z.leb_le in E1|apply Z.leb_gt in E1
      |apply Z.leb_le in E1|apply Z.leb_gt in E1];
      destruct (2 <=? Z.of_nat h) eqn:E2;
      destruct (2 <=? Z.of_nat w) eqn:E4;
      try reflexivity; exfalso;
      repeat match goal with
             | H : (_ <=? _) = true |- _ => apply Z.leb_le in H
             | H : (_ <=? _) = false |- _ => apply Z.leb_gt in H
             end; lia. }
  rewrite E. reflexivity.
Qed.


End Wrappers.

(** Options without [n_heads], and options without [original_shape]. *)
Lemma missing_option_key_error_witness :
  seg_attention_wrapper int_mean Float.sqrt_pow identity_blur query_attention
    Float.one "reflect" example_query example_query example_query
    (mkOptions None (Some [1; 4; 8; 16])) None = Raise KeyError
  /\ seg_attention_wrapper_old int_mean Float.sqrt_pow query_attention
       identity_blur_2d Float.one example_query example_query example_query
       (mkOptions (Some 8) None) None = Raise KeyError.
Proof.
  split.
  - exact (proj1 (proj1 (@missing_option_key_error Z int_mean Float.sqrt_pow
             identity_blur query_attention identity_blur_2d Float.one
             "reflect"%string example_query example_query example_query
             (mkOptions None (Some [1; 4; 8; 16])) None) eq_refl)).
  - exact (proj2 (proj2 (@missing_option_key_error Z int_mean Float.sqrt_pow
             identity_blur query_attention identity_blur_2d Float.one
             "reflect"%string example_query example_query example_query
             (mkOptions (Some 8) None) None)
             8 1%nat 8%nat 2%nat eq_refl eq_refl eq_refl)).
Defined.

(** An original shape with height 0. *)
Lemma malformed_argument_errors_witness :
  seg_attention_wrapper int_mean Float.sqrt_pow identity_blur query_attention
    Float.one "reflect" example_query example_query example_query
    (mkOptions (Some 8) (Some [1; 4; 0; 16])) None = Raise ZeroDivisionError.
Proof.
  refine (proj1 (proj2 (proj2 (@malformed_argument_errors Z int_mean
            Float.sqrt_pow identity_blur query_attention identity_blur_2d
            Float.one "reflect"%string example_query example_query
            example_query (mkOptions (Some 8) (Some [1; 4; 0; 16])) None
            8 [1; 4; 0; 16] eq_refl eq_refl)) _ _ _)).
  - reflexivity.
  - simpl. lia.
  - reflexivity.
Defined.

(** [blur_sigma = -1.0]. *)
Lemma wrappers_agree_on_mean_branch_witness :
  seg_attention_wrapper_old int_mean Float.sqrt_pow query_attention
    identity_blur_2d (Float.of_Z (-1)) example_query example_query
    example_query wide_options None
  = seg_attention_wrapper int_mean Float.sqrt_pow identity_blur
      query_attention (Float.of_Z (-1)) "reflect" example_query example_query
      example_query wide_options None.
Proof.
  refine (@wrappers_agree_on_mean_branch Z int_mean Float.sqrt_pow
            identity_blur query_attention identity_blur_2d (Float.of_Z (-1))
            "reflect"%string example_query example_query example_query
            wide_options None _).
  reflexivity.
Defined.

(** The grids 2 x 4 and 4 x 2 of the query of shape (1, 8, 2). *)
Lemma mean_collapse_ignores_aspect_ratio_witness :
  exists q',
    perturbed_query int_mean Float.sqrt_pow identity_blur (Float.of_Z (-1))
      "reflect" example_query wide_options = Ok (8, q') /\
    perturbed_query int_mean Float.sqrt_pow identity_blur (Float.of_Z (-1))
      "reflect" example_query tall_options = Ok (8, q').
Proof.
  refine (@mean_collapse_ignores_aspect_ratio Z int_mean Float.sqrt_pow
            identity_blur (Float.of_Z (-1)) "reflect"%string example_query
            wide_options tall_options
            8 1%nat 2%nat
            (mkTensor [1; 2; 2; 4]%nat
               [1; 3; 5; 7; 9; 11; 13; 15; 2; 4; 6; 8; 10; 12; 14; 16])
            8 1%nat 2%nat
            (mkTensor [1; 2; 4; 2]%nat
               [1; 3; 5; 7; 9; 11; 13; 15; 2; 4; 6; 8; 10; 12; 14; 16])
            _ _ _); reflexivity.
Defined.

(** [blur_sigma = -1.0] on the query of shape (1, 8, 2). *)
Lemma delegated_query_keeps_shape_witness :
  shape (mkTensor [1; 8; 2]%nat
           [8; 9; 8; 9; 8; 9; 8; 9; 8; 9; 8; 9; 8; 9; 8; 9])
  = shape example_query /\
  n_heads wide_options = Some 8.
Proof.
  refine (@delegated_query_keeps_shape Z int_mean Float.sqrt_pow
            identity_blur (Float.of_Z (-1)) "reflect"%string example_query
            wide_options 8
            (mkTensor [1; 8; 2]%nat
               [8; 9; 8; 9; 8; 9; 8; 9; 8; 9; 8; 9; 8; 9; 8; 9]) _ _).
  - intros ks sg b t t' H. injection H as <-. reflexivity.
  - reflexivity.
Defined.

(** [blur_sigma = 1.0] on a 2 x 4 grid: [c = 6], the kernel size 7 is
    capped at 3 and the blur is applied. *)
Lemma blur_applied_iff_witness :
  perturb int_mean identity_blur Float.one "reflect"
    (mkTensor [1; 2; 2; 4]%nat
       [1; 3; 5; 7; 9; 11; 13; 15; 2; 4; 6; 8; 10; 12; 14; 16])
  = identity_blur (3, 3) (Float.one, Float.one) "reflect"
      (mkTensor [1; 2; 2; 4]%nat
         [1; 3; 5; 7; 9; 11; 13; 15; 2; 4; 6; 8; 10; 12; 14; 16]).
Proof.
  refine (@blur_applied_iff Z int_mean identity_blur Float.one
            "reflect"%string
            (mkTensor [1; 2; 2; 4]%nat
               [1; 3; 5; 7; 9; 11; 13; 15; 2; 4; 6; 8; 10; 12; 14; 16])
            1%nat 2%nat 2%nat 4%nat 6 _ _ _); reflexivity.
Defined.


End WrapperFacts.

(** ** The sign of the kernel size *)

Module KernelSign.

Import Float.

Lemma ceil_nonneg_fraction n d : 0 <= n -> 0 < d -> 0 <= - (- n / d).
Proof.
  intros Hn Hd.
  assert (- n / d <= 0); [|lia].
  apply Z.div_le_upper_bound; lia.
Qed.

Lemma ceil_of_positive m e c :
  ceil (S754_finite false m e) = Ok c -> 0 <= c.
Proof.
  unfold ceil, to_fraction. destruct (0 <=? e) eqn:E; intros H;
    injection H as <-.
  - apply (@ceil_nonneg_fraction (Z.pos m * 2 ^ e) 1); [|lia].
    apply Z.leb_le in E. apply Z.mul_nonneg_nonneg; [lia|].
    apply Z.pow_nonneg. lia.
  - apply (@ceil_nonneg_fraction (Z.pos m) (2 ^ (- e))); [lia|].
    apply Z.leb_gt in E. apply Z.pow_pos_nonneg; lia.
Qed.

(** [math.ceil(6 * blur_sigma)] is not negative for [blur_sigma >= 0]. *)
Lemma ceil_six_sigma_nonneg blur_sigma c :
  ge blur_sigma zero = true ->
  ceil (mul six blur_sigma) = Ok c -> 0 <= c.
Proof.
  intros Hge. destruct blur_sigma as [s|s| |s m e].
  - destruct s; intros H; injection H as <-; lia.
  - destruct s; [discriminate Hge|discriminate].
  - discriminate Hge.
  - destruct s; [discriminate Hge|].
    unfold mul, six, SFmul. cbn [xorb].
    unfold binary_round_aux.
    destruct (shr_fexp prec emax _ _ _) as [mrs' e'].
    destruct (shr_fexp prec emax _ _ _) as [mrs'' e''].
    destruct (shr_m mrs'') as [|p|p].
    + intros H. injection H as <-. lia.
    + destruct (e'' <=? emax - prec); [apply ceil_of_positive|discriminate].
    + discriminate.
Qed.

Section Positive.

Variable elem : Type.

(** For [blur_sigma >= 0] on a spatial query with height and width at
    least 1, the kernel size is at least 1: together with its oddness, a
    size a blur can take. *)
Theorem capped_kernel_size_positive :
  forall blur_sigma (q : Tensor elem) bs c h w k,
    ge blur_sigma zero = true ->
    shape q = [bs; c; h; w] ->
    (0 < h)%nat -> (0 < w)%nat ->
    capped_kernel_size blur_sigma q = Ok k ->
    1 <= k.
Proof.
  intros blur_sigma q bs c h w k Hge Hsh Hh Hw.
  unfold capped_kernel_size, odd_kernel_size. rewrite Hsh.
  change (last2 [bs; c; h; w]) with (Ok (Z.of_nat h, Z.of_nat w)).
  destruct (ceil (mul six blur_sigma)) as [n|e] eqn:Hn; [|discriminate].
  cbn [bind]. intros H.
  assert (Hk : k = Z.min (if n mod 2 =? 0 then n + 1 else n)
                         (2 * Z.min (Z.of_nat h) (Z.of_nat w) - 1))
    by congruence.
  rewrite Hk. clear H Hk.
  pose proof (ceil_six_sigma_nonneg _ Hge Hn) as Hnn.
  pose proof (Z.mod_pos_bound n 2 ltac:(lia)) as Hb.
  pose proof (Z.div_mod n 2 ltac:(lia)) as Hd.
  destruct (n mod 2 =? 0) eqn:E;
    [apply Z.eqb_eq in E|apply Z.eqb_neq in E]; lia.
Qed.

End Positive.

(** [blur_sigma = 0.0] on an 8 x 16 grid: the kernel size is 1. *)
Lemma capped_kernel_size_positive_witness :
  capped_kernel_size zero (mkTensor [1; 4; 8; 16]%nat (@nil Z)) = Ok 1
  /\ 1 <= 1.
Proof.
  split; [reflexivity|].
  refine (@capped_kernel_size_positive Z zero
            (mkTensor [1; 4; 8; 16]%nat (@nil Z)) 1%nat 4%nat 8%nat 16%nat 1
            _ _ _ _ _); try reflexivity; lia.
Defined.

End KernelSign.
